(** * The PostgreSQL adapter of LADC: [BasicMainConnection.ts]

    A shallow embedding of [src/BasicMainConnection.ts] and the properties
    of its parameter merging, insert rewriting, inserted-id resolution,
    prepared statements and in-memory cursor.

    Conventions of the embedding:
    - a JavaScript string is the list of its UTF-16 code units;
    - [new Error(msg)] is identified with its message, [throw] is the
      [Throw] constructor of [outcome]; a [TypeError] or [RangeError] of
      the runtime is the [Fault] constructor;
    - [await client.query(q)] is one [Query] node of the program tree
      [Prog]; a rejected query propagates (the module has no [catch]);
    - an object used as a dictionary ([autoincMapping], named parameters)
      is the [gmap] of its own properties; a result row is the
      association list of its own properties, in the order in which
      [Object.keys] lists them; these objects are plain and extensible,
      what they inherit comes from [Object.prototype], whose members are
      the parameter [ObjectPrototype];
    - numeric keys and counters are the JavaScript numbers of integral
      value, and their arithmetic rounds as that of doubles does. *)

From Stdlib Require Import ZArith NArith List Bool Lia String Ascii.
From stdpp Require Import base option list gmap.
Import ListNotations.

Local Open Scope Z_scope.
Set Warnings "-register-all".

(** ** JavaScript strings *)

Module JsString.

(** The string of an ASCII literal. *)
Definition js (s : string) : list N :=
  List.map N_of_ascii (list_ascii_of_string s).

(** [if (s)] for a string: only the empty string is falsy. *)
Definition truthy (s : list N) : bool :=
  match s with [] => false | _ :: _ => true end.

Fixpoint digits (fuel : nat) (n : N) (acc : list N) : list N :=
  match fuel with
  | O => acc
  | S fuel =>
      let acc := (48 + n mod 10)%N :: acc in
      if (n <? 10)%N then acc else digits fuel (n / 10)%N acc
  end.

(** [String(n)] for a natural number [n]: its decimal digits. *)
Definition ofN (n : N) : list N :=
  digits (S (N.to_nat (N.log2 n))) n [].

(** All the digits of an integer, which is [String(z)] for an integer up
    to [2^53] in absolute value. *)
Definition ofZ (z : Z) : list N :=
  if z <? 0 then 45%N :: ofN (Z.to_N (- z)) else ofN (Z.to_N z).

(** [parts.join(sep)]. *)
Fixpoint join (sep : list N) (parts : list (list N)) : list N :=
  match parts with
  | [] => []
  | [p] => p
  | p :: ps => p ++ sep ++ join sep ps
  end.

Definition is_digit (c : N) : bool := ((48 <=? c) && (c <=? 57))%N.

(** The array index written by a property key, if the key is the
    canonical decimal form of an integer below [2^32 - 1]. *)
Definition array_index (key : list N) : option nat :=
  match key with
  | [] => None
  | c :: rest =>
      if forallb is_digit key && (negb (c =? 48)%N || negb (truthy rest)) then
        let n := fold_left (fun acc d => (10 * acc + (d - 48))%N) key 0%N in
        if (n <? 4294967295)%N then Some (N.to_nat n) else None
      else None
  end.

End JsString.

Import JsString.

(** ** JavaScript numbers

    A number of integral value is its integer. All integers up to [2^53]
    in absolute value are numbers; beyond, an integer is rounded to the
    nearest number, a tie going to the even significand. *)

Module JsNumber.

(** The number nearest to an integer. *)
Definition round (x : Z) : Z :=
  let a := Z.abs x in
  if a <=? 9007199254740992 then x
  else
    let ulp := 2 ^ (Z.log2 a - 52) in
    let significand := a / ulp in
    let below := significand * ulp in
    let up :=
      match 2 * (a - below) ?= ulp with
      | Lt => false
      | Gt => true
      | Eq => Z.odd significand
      end in
    Z.sgn x * (if up then below + ulp else below).

(** [x + y] and [x - y] *)
Definition add (x y : Z) : Z := round (x + y).

Definition sub (x y : Z) : Z := round (x - y).

(** The decimals of [k] digits that read back as the number [x]: the
    digits [s] and the position [n] of the decimal point, the value being
    [s * 10^(n - k)]. *)
Definition decimals (x k : Z) : list (Z * Z) :=
  let n0 := Z.of_nat (length (ofN (Z.to_N x))) in
  let around n :=
    let s := x / 10 ^ (n - k) in
    [(s, n); (s + 1, n)] in
  List.filter
    (fun '(s, n) =>
       (k <=? n) && (10 ^ (k - 1) <=? s) && (s <? 10 ^ k)
       && (round (s * 10 ^ (n - k)) =? x))
    (around n0 ++ around (n0 + 1)).

(** Of two decimals the one closer to [x], the even one on a tie. *)
Definition closer (x k : Z) (c1 c2 : Z * Z) : Z * Z :=
  let distance '(s, n) := Z.abs (s * 10 ^ (n - k) - x) in
  match distance c1 ?= distance c2 with
  | Lt => c1
  | Gt => c2
  | Eq => if Z.even (fst c1) then c1 else c2
  end.

(** The shortest decimal that reads back as [x], from [k] digits on. *)
Fixpoint shortest (fuel : nat) (x k : Z) : Z * Z * Z :=
  match fuel with
  | O => (x, Z.of_nat (length (ofN (Z.to_N x))), k)
  | S fuel =>
      match decimals x k with
      | [] => shortest fuel x (k + 1)
      | c :: cs =>
          let (s, n) := fold_left (closer x k) cs c in
          (s, n, k)
      end
  end.

(** [String(x)]: all the digits of a number up to [2^53]; beyond, the
    digits of the shortest decimal that reads back as the number,
    followed by zeros up to 21 digits in all, and in exponent notation
    from there on. *)
Definition toString (x : Z) : list N :=
  let a := Z.abs x in
  (if x <? 0 then [45%N] else [])
  ++ (if a <=? 9007199254740992 then ofN (Z.to_N a)
      else
        let '(s, n, k) := shortest 17 a 1 in
        let digits := ofN (Z.to_N s) in
        if n <=? 21 then digits ++ repeat 48%N (Z.to_nat (n - k))
        else
          match digits with
          | [] => []
          | [d] => d :: js "e+" ++ ofN (Z.to_N (n - 1))
          | d :: more => d :: 46%N :: more ++ js "e+" ++ ofN (Z.to_N (n - 1))
          end).

End JsNumber.

(** ** The regular expression engine

    A backtracking matcher in continuation-passing style, with the greedy
    priorities of ECMAScript: a quantifier first tries one more iteration,
    and an iteration that consumes nothing is rejected. *)

Module RegExp.

Inductive regex : Type :=
| Bol                                  (* ^  (no m flag) *)
| Eol                                  (* $  (no m flag) *)
| Atom (p : N -> bool)                 (* one code unit of a set *)
| Seq (r1 r2 : regex)
| Star (r : regex)                     (* r*  *)
| Opt (r : regex)                      (* r?  *)
| Group (n : nat) (r : regex).         (* the n-th capturing group *)

Definition Plus (r : regex) : regex := Seq r (Star r).

Fixpoint seqs (rs : list regex) : regex :=
  match rs with
  | [] => Star (Atom (fun _ => false))
  | [r] => r
  | r :: rs => Seq r (seqs rs)
  end.

Record mstate : Type := MState {
  pos : nat;                            (* index of the next code unit *)
  rest : list N;                        (* input from [pos] on *)
  caps : list (nat * list N)            (* captures, latest first *)
}.

Definition capture (m : mstate) (n : nat) : option (list N) :=
  snd <$> List.find (fun c => Nat.eqb (fst c) n) (caps m).

Fixpoint rmatch (r : regex) (k : mstate -> option mstate) (s : mstate)
  : option mstate :=
  match r with
  | Bol => if Nat.eqb (pos s) 0 then k s else None
  | Eol => match rest s with [] => k s | _ :: _ => None end
  | Atom p =>
      match rest s with
      | c :: tl => if p c then k (MState (S (pos s)) tl (caps s)) else None
      | [] => None
      end
  | Seq r1 r2 => rmatch r1 (rmatch r2 k) s
  | Star r1 =>
      (fix iter (fuel : nat) (s0 : mstate) {struct fuel} : option mstate :=
         match fuel with
         | O => k s0
         | S fuel =>
             match
               rmatch r1
                 (fun s1 =>
                    if Nat.ltb (length (rest s1)) (length (rest s0))
                    then iter fuel s1 else None) s0
             with
             | Some m => Some m
             | None => k s0
             end
         end) (length (rest s)) s
  | Opt r1 =>
      match
        rmatch r1
          (fun s1 =>
             if Nat.ltb (length (rest s1)) (length (rest s))
             then k s1 else None) s
      with
      | Some m => Some m
      | None => k s
      end
  | Group n r1 =>
      rmatch r1
        (fun s1 =>
           k (MState (pos s1) (rest s1)
                ((n, take (pos s1 - pos s)%nat (rest s)) :: caps s1))) s
  end.

(** [r.exec(input)] for a regular expression without the [g] and [y]
    flags: the first start index, from 0 on, at which [r] matches. *)
Fixpoint exec_from (r : regex) (i : nat) (input : list N) : option mstate :=
  match rmatch r Some (MState i input []) with
  | Some m => Some m
  | None =>
      match input with
      | [] => None
      | _ :: tl => exec_from r (S i) tl
      end
  end.

Definition exec (r : regex) (input : list N) : option mstate :=
  exec_from r 0 input.

(** *** Character sets *)

(** [\s]: the WhiteSpace and LineTerminator code points. *)
Definition white_space (c : N) : bool :=
  ((9 <=? c) && (c <=? 13) || (c =? 32) || (c =? 160) || (c =? 5760)
   || (8192 <=? c) && (c <=? 8202) || (c =? 8232) || (c =? 8233)
   || (c =? 8239) || (c =? 8287) || (c =? 12288) || (c =? 65279))%N.

(** Canonicalize under the [i] flag, for the comparison with an ASCII
    pattern character: Canonicalize never maps a code unit above 127
    to one below 128, so only the two ASCII cases of a letter can
    canonicalize to it. *)
Definition canonicalize (c : N) : N :=
  if ((97 <=? c) && (c <=? 122))%N then (c - 32)%N else c.

(** A pattern character under the [i] flag. *)
Definition chr (a : ascii) : regex :=
  Atom (fun c => (canonicalize c =? canonicalize (N_of_ascii a))%N).

(** A word of pattern characters. *)
Definition word (w : string) : regex :=
  seqs (List.map chr (list_ascii_of_string w)).

Definition s_class : regex := Atom white_space.                (* \s *)
Definition not_space_paren : regex :=                          (* [^\s\(] *)
  Atom (fun c => negb (white_space c || (c =? 40)%N)).
Definition not_close_paren : regex :=                          (* [^)] *)
  Atom (fun c => negb (c =? 41)%N).
Definition any_unit : regex :=                                 (* [\s\S] *)
  Atom (fun c => white_space c || negb (white_space c)).

End RegExp.

Import RegExp.

(** [const insertRegexp =
      /^\s*insert\s+into\s+([^\s\(]+)\s*(?:\([^)]+\))?\s*values\s*\([\s\S]*\)\s*$/i] *)
Definition insertRegexp : regex :=
  seqs [ Bol; Star s_class; word "insert"; Plus s_class; word "into";
         Plus s_class; Group 1 (Plus not_space_paren); Star s_class;
         Opt (seqs [chr "("; Plus not_close_paren; chr ")"]);
         Star s_class; word "values"; Star s_class; chr "(";
         Star any_unit; chr ")"; Star s_class; Eol ].

(** ** Values, rows and failures *)

(** A JavaScript value ([any], [unknown]), as far as this module looks
    at one: its truthiness and, for an object, its own properties. *)
Inductive any : Type :=
| VUndefined
| VNull
| VBool (b : bool)
| VNumber (z : Z)
| VNaN
| VString (s : list N)
| VObject (fields : list (list N * any)).

(** [!!v] *)
Definition truthy_value (v : any) : bool :=
  match v with
  | VUndefined | VNull | VNaN => false
  | VBool b => b
  | VNumber z => negb (z =? 0)
  | VString s => truthy s
  | VObject _ => true
  end.

(** A result row of the engine: a plain object with one own property per
    column, in the order in which the object lists them. *)
Abbreviation Row := (list (list N * any)).

(** The errors that the runtime itself throws. *)
Inductive fault : Type :=
| TypeError
| RangeError.

(** The outcome of a call: a value, [throw new Error(message)], or an
    error of the runtime. *)
Inductive outcome (A : Type) : Type :=
| Ok (a : A)
| Throw (message : list N)
| Fault (f : fault).

Arguments Ok {A} a.
Arguments Throw {A} message.
Arguments Fault {A} f.

Definition outcome_bind {A B : Type} (f : A -> outcome B) (r : outcome A)
  : outcome B :=
  match r with
  | Ok a => f a
  | Throw message => Throw message
  | Fault e => Fault e
  end.

#[global] Instance outcome_ret : MRet outcome := fun A a => Ok a.
#[global] Instance outcome_mbind : MBind outcome :=
  fun A B f r => outcome_bind f r.

(** Whether the row has a column of that name. *)
Definition has_column (row : Row) (key : list N) : bool :=
  existsb (fun field => bool_decide (fst field = key)) row.

(** [row.hasOwnProperty(key)]. The method is looked up on the row first,
    where a column named [hasOwnProperty] hides the built-in method that
    rows inherit from [Object.prototype]; the value of a column is no
    function, and calling it is a [TypeError]. *)
Definition hasOwnProperty (row : Row) (key : list N) : outcome bool :=
  if has_column row (js "hasOwnProperty") then Fault TypeError
  else Ok (has_column row key).

(** [row[key]] *)
Definition get (row : Row) (key : list N) : any :=
  match List.find (fun field => bool_decide (fst field = key)) row with
  | Some field => snd field
  | None => VUndefined
  end.

(** [Object.keys(row)] *)
Definition Object_keys (row : Row) : list (list N) := List.map fst row.

(** The string behind [if (s)], for [s : string | undefined]. *)
Definition given (s : option (list N)) : option (list N) :=
  match s with
  | Some (c :: tl) => Some (c :: tl)
  | _ => None
  end.

(** ** Arrays and parameters *)

(** An array: its indexed slots ([None] is a hole) and the properties
    that are not array indices. *)
Record jsarray : Type := JsArray {
  elems : list (option any);
  extra : gmap (list N) any
}.

(** [a[i]] *)
Definition arr_read (a : list (option any)) (i : nat) : any :=
  match a !! i with
  | Some (Some v) => v
  | _ => VUndefined
  end.

(** [a[i] = v]: an index past the end extends the array with holes. *)
Definition arr_write (a : list (option any)) (i : nat) (v : any)
  : list (option any) :=
  if (i <? length a)%nat then <[i := Some v]> a
  else a ++ replicate (i - length a)%nat None ++ [Some v].

(** [[...a]]: the copy is dense, a hole is read as [undefined]. *)
Definition spread (a : list (option any)) : list (option any) :=
  List.map (fun slot => Some (default VUndefined slot)) a.

(** [a.forEach(callback)] from [index] on, the callback acting on a
    state; holes are skipped. *)
Fixpoint forEach {St : Type} (a : list (option any)) (index : nat)
    (callback : any -> nat -> St -> St) (st : St) : St :=
  match a with
  | [] => st
  | None :: tl => forEach tl (S index) callback st
  | Some val :: tl => forEach tl (S index) callback (callback val index st)
  end.

(** Modelled from the spec: the type [SqlParameters] of the package
    [ladc], an ordered sequence of values or a mapping from name to
    value. *)
Inductive SqlParameters : Type :=
| Positional (a : jsarray)
| Named (o : gmap (list N) any).

(** The key of [bind] and [unbind]: [number | string]. *)
Inductive key : Type :=
| KNumber (z : Z)
| KString (s : list N).

(** [params[z] = v] for a number [z]. On an array a number that is an
    array index writes the slot; any other number, and any number on an
    object, names a property. *)
Definition put (params : SqlParameters) (z : Z) (v : any) : SqlParameters :=
  match params with
  | Positional a =>
      if (0 <=? z) && (z <? 4294967295)
      then Positional (JsArray (arr_write (elems a) (Z.to_nat z) v) (extra a))
      else Positional (JsArray (elems a)
                         (<[JsNumber.toString z := v]> (extra a)))
  | Named o => Named (<[JsNumber.toString z := v]> o)
  end.

(** [o[s] = undefined] on the own properties [o] of an object, for a
    string [s] that the object gives no meaning of its own. The key
    [__proto__] reaches the setter inherited from [Object.prototype],
    which ignores [undefined], unless the object has a property of its
    own by that name; any other string names a property. *)
Definition clear_property (o : gmap (list N) any) (s : list N)
  : gmap (list N) any :=
  if bool_decide (s = js "__proto__") && negb (bool_decide (is_Some (o !! s)))
  then o
  else <[s := VUndefined]> o.

(** [params[key] = undefined], the assignment of [unbind]. A number is a
    key as in [put]. Of the strings, on an array, an array index writes
    the slot and [length] asks for a length that is no number, which is a
    [RangeError]. *)
Definition put_undefined (params : SqlParameters) (k : key)
  : outcome SqlParameters :=
  match k with
  | KNumber z => Ok (put params z VUndefined)
  | KString s =>
      match params with
      | Positional a =>
          match array_index s with
          | Some i =>
              Ok (Positional
                    (JsArray (arr_write (elems a) i VUndefined) (extra a)))
          | None =>
              if bool_decide (s = js "length") then Fault RangeError
              else Ok (Positional (JsArray (elems a)
                                     (clear_property (extra a) s)))
          end
      | Named o => Ok (Named (clear_property o s))
      end
  end.

(** [function toPositionalParameters(params?: SqlParameters)] *)
Definition toPositionalParameters (params : option SqlParameters)
  : outcome (option jsarray) :=
  match params with
  | None => Ok None
  | Some (Positional a) => Ok (Some a)
  | Some (Named _) => Throw (js "Named parameters are not implemented")
  end.

(** [function mergeParams(params1, params2)] *)
Definition mergeParams (params1 params2 : option SqlParameters)
  : outcome (option SqlParameters) :=
  match params1, params2 with
  | None, _ => Ok params2
  | _, None => Ok params1
  | Some (Positional p1), Some (Positional p2) =>
      let result := spread (elems p1) in
      let result :=
        forEach (elems p2) 0 (fun val index result => arr_write result index val)
          result in
      Ok (Some (Positional (JsArray result ∅)))
  | Some (Named p1), Some (Named p2) => Ok (Some (Named (p2 ∪ p1)))
  | Some _, Some _ =>
      Throw (js "Cannot merge named parameters with positioned parameters")
  end.

(** ** The insert rewriter *)

(** Modelled from the spec: the type [LadcPgOptions] of
    [./exported-definitions]; an option left out reads as [false]. *)
Record LadcPgOptions : Type := {
  autoincMapping : option (gmap (list N) (list N));
  useReturningAll : bool;
  inMemoryCursor : bool
}.

(** [{ sql, insertTable, idColumnName }] *)
Record InsertRewrite : Type := {
  rw_sql : list N;
  rw_insertTable : option (list N);
  rw_idColumnName : option (list N)
}.

(** The members of [Object.prototype], which every plain object inherits
    ([constructor], [toString], [hasOwnProperty], [__proto__], ...), in
    the runtime of the adapter: under the name of a member, the text its
    value converts to. The members are functions and objects: they are
    truthy and convert to a text that is not empty. *)
Class ObjectPrototype : Type := {
  inherited : list N -> option (list N);
  inherited_nonempty :
    forall name text, inherited name = Some text -> text <> []
}.

(** [mapping[name]]: the property of the mapping itself, or else the
    member of [Object.prototype] of that name. The module tests what it
    reads here, splices it into a text and uses it as a property key, so
    that a member stands in for its text. *)
Definition property `{ObjectPrototype} (mapping : gmap (list N) (list N))
    (name : list N) : option (list N) :=
  match mapping !! name with
  | Some column => Some column
  | None => inherited name
  end.

(** [function addReturningToInsert(sql, options)] *)
Definition addReturningToInsert `{ObjectPrototype} (sql : list N)
    (options : LadcPgOptions) : InsertRewrite :=
  match exec insertRegexp sql with
  | None => {| rw_sql := sql; rw_insertTable := None; rw_idColumnName := None |}
  | Some matches =>
      let insertTable := capture matches 1 in
      let idColumnName :=
        match autoincMapping options with
        | Some mapping => property mapping (default (js "undefined") insertTable)
        | None => None
        end in
      let sql :=
        match given idColumnName with
        | Some idColumnName => sql ++ js " returning " ++ idColumnName
        | None =>
            if useReturningAll options then sql ++ js " returning *" else sql
        end in
      {| rw_sql := sql; rw_insertTable := insertTable;
         rw_idColumnName := idColumnName |}
  end.

(** ** The engine *)

(** The argument of [client.query]: [{ name?, text, values }]. *)
Record QueryConfig : Type := {
  name : option (list N);
  text : list N;
  values : option jsarray
}.

(** What [client.query] resolves to; the rows of the engine are objects. *)
Record QueryResult : Type := {
  rows : list Row;
  rowCount : option N
}.

(** An asynchronous function of the module: it returns, throws, or awaits
    a call of the engine session and goes on with what the call resolves
    to. A call that rejects ends the function with the same failure. *)
Inductive Prog (A : Type) : Type :=
| Return (a : A)
| Raise (message : list N)
| Crash (f : fault)
| Query (q : QueryConfig) (k : QueryResult -> Prog A)   (* client.query(q) *)
| End (k : Prog A).                                     (* client.end() *)

Arguments Return {A} a.
Arguments Raise {A} message.
Arguments Crash {A} f.
Arguments Query {A} q k.
Arguments End {A} k.

Fixpoint Prog_bind {A B : Type} (f : A -> Prog B) (p : Prog A) : Prog B :=
  match p with
  | Return a => f a
  | Raise message => Raise message
  | Crash e => Crash e
  | Query q k => Query q (fun r => Prog_bind f (k r))
  | End k => End (Prog_bind f k)
  end.

#[global] Instance Prog_ret : MRet Prog := fun A a => Return a.
#[global] Instance Prog_mbind : MBind Prog := fun A B f p => Prog_bind f p.

(** A synchronous call inside an asynchronous function. *)
Definition lift {A : Type} (r : outcome A) : Prog A :=
  match r with
  | Ok a => Return a
  | Throw message => Raise message
  | Fault e => Crash e
  end.

(** [await client.query(q)] *)
Definition query (q : QueryConfig) : Prog QueryResult := Query q Return.

(** The first call a program makes to the engine, if it makes one. *)
Definition request {A : Type} (p : Prog A) : option QueryConfig :=
  match p with
  | Query q _ => Some q
  | _ => None
  end.

(** Running a program against an engine that answers each query. *)
Fixpoint run {A : Type} (engine : QueryConfig -> outcome QueryResult)
    (p : Prog A) : outcome A :=
  match p with
  | Return a => Ok a
  | Raise message => Throw message
  | Crash e => Fault e
  | Query q k =>
      match engine q with
      | Ok r => run engine (k r)
      | Throw message => Throw message
      | Fault e => Fault e
      end
  | End k => run engine k
  end.

(** ** The result adapter *)

(** [String.prototype.toLowerCase] and [String.prototype.toUpperCase]:
    the case mappings of the JavaScript engine running the adapter. *)
Class CaseMapping : Type := {
  toLowerCase : list N -> list N;
  toUpperCase : list N -> list N;
  (* upper-casing never erases a string *)
  toUpperCase_nonempty : forall s, s <> [] -> toUpperCase s <> []
}.

(** [function toRows(result: QueryResult): any[]] *)
Definition toRows (result : QueryResult) : list Row := rows result.

(** Modelled from the spec: the type [BasicExecResult] of the package
    [ladc], the affected row count and the deferred inserted-id resolver. *)
Record BasicExecResult : Type := {
  affectedRows : option N;
  getInsertedId : option (list N) -> outcome any
}.

(** [function toBasicExecResult(result, insertTable?, optIdCol?)] *)
Definition toBasicExecResult `{CaseMapping} (result : QueryResult)
    (insertTable optIdCol : option (list N)) : BasicExecResult :=
  {| affectedRows := rowCount result;
     getInsertedId := fun idColumnName =>
       match rows result with
       | [] =>
           Throw (js "Cannot get the inserted ID, please append 'returning your_column_id' to your query")
       | _ :: _ :: _ =>
           Throw (js "Cannot get the inserted ID, there must be one result row ("
                  ++ ofN (N.of_nat (length (rows result))) ++ js ")")
       | [row] =>
           let unknown idColumnName : outcome (option (list N)) :=
             Throw (js "Cannot get the inserted ID '" ++ idColumnName
                    ++ js "', available columns are: "
                    ++ join (js ", ") (Object_keys row)) in
           let col : outcome (option (list N)) :=
             match given idColumnName with
             | Some idColumnName =>
                 has ← hasOwnProperty row idColumnName;
                 if negb has then unknown idColumnName
                 else Ok (Some idColumnName)
             | None =>
                 match given optIdCol with
                 | Some optIdCol =>
                     has ← hasOwnProperty row optIdCol;
                     if negb has then unknown optIdCol
                     else Ok (Some optIdCol)
                 | None =>
                     match given insertTable with
                     | Some insertTable =>
                         has ← hasOwnProperty row (js "id");
                         if has : bool then Ok (Some (js "id"))
                         else
                           let composed := toLowerCase insertTable ++ js "_id" in
                           has ← hasOwnProperty row composed;
                           if has : bool then Ok (Some composed)
                           else
                             let composed := toUpperCase composed in
                             has ← hasOwnProperty row composed;
                             if has : bool then Ok (Some composed) else Ok None
                     | None => Ok None
                     end
                 end
             end in
           col ← col;
           match given col with
           | None =>
               Throw (js "Cannot get the inserted ID, available columns are: "
                      ++ join (js ", ") (Object_keys row))
           | Some col => Ok (get row col)
           end
       end |}.

(** ** The in-memory cursor *)

Module InMemoryCursor.

(** The closure of [makeInMemoryCursor]: [rows] and [currentIndex]. *)
Record cursor : Type := {
  rows : option (list any);
  currentIndex : Z
}.

(** [{ done, value }] *)
Record IteratorResult : Type := {
  done : bool;
  value : any
}.

(** [rows[index]] *)
Definition at_index (rows : list any) (index : Z) : any :=
  if index <? 0 then VUndefined
  else default VUndefined (rows !! Z.to_nat index).

(** [function makeInMemoryCursor(rows?: any[])] *)
Definition makeInMemoryCursor (rows : option (list any)) : cursor :=
  {| rows := rows; currentIndex := -1 |}.

(** [next: async () => ...] *)
Definition next (c : cursor) : IteratorResult * cursor :=
  match rows c with
  | None => ({| done := true; value := VUndefined |}, c)
  | Some rs =>
      let currentIndex := currentIndex c + 1 in
      let value := at_index rs currentIndex in
      let rows := if negb (truthy_value value) then None else Some rs in
      ({| done := negb (bool_decide (is_Some rows)); value := value |},
       {| rows := rows; currentIndex := currentIndex |})
  end.

(** [return: async () => ...] *)
Definition return_ (c : cursor) : IteratorResult * cursor :=
  ({| done := true; value := VUndefined |},
   {| rows := None; currentIndex := currentIndex c |}).

(** [throw: async err => ...] *)
Definition throw (err : list N) (c : cursor) : outcome IteratorResult * cursor :=
  (Throw err, {| rows := None; currentIndex := currentIndex c |}).

End InMemoryCursor.

(** ** Prepared statements *)

Module PreparedStatement.

(** The closure of [makeBasicPreparedStatement]. *)
Record statement : Type := {
  psName : list N;
  sql : list N;
  boundParams : option SqlParameters
}.

Definition with_boundParams (s : statement) (params : option SqlParameters)
  : statement :=
  {| psName := psName s; sql := sql s; boundParams := params |}.

(** [function makeBasicPreparedStatement(options, client, sql, initialParams?)],
    in the state [psSequence] of the module, a counter that starts at 0
    and that [++psSequence] no longer moves once it is [2^53]. *)
Definition makeBasicPreparedStatement (psSequence : Z) (sql : list N)
    (initialParams : option SqlParameters) : Z * statement :=
  let psSequence := JsNumber.add psSequence 1 in
  (psSequence,
   {| psName := js "ladc-ps-" ++ JsNumber.toString psSequence; sql := sql;
      boundParams := initialParams |}).

(** [bind: async (key, value) => ...] *)
Definition bind (k : key) (v : any) (s : statement) : outcome statement :=
  match k with
  | KString _ => Throw (js "Named parameters are not implemented")
  | KNumber position =>
      let params :=
        match boundParams s with
        | None => Positional (JsArray [] ∅)
        | Some params => params
        end in
      Ok (with_boundParams s (Some (put params (JsNumber.sub position 1) v)))
  end.

(** [unbind: async (key) => ...] *)
Definition unbind (k : key) (s : statement) : outcome statement :=
  match boundParams s with
  | Some params =>
      params ← put_undefined params k;
      Ok (with_boundParams s (Some params))
  | None => Ok s
  end.

(** [exec: async (params?) => ...] *)
Definition exec `{CaseMapping} `{ObjectPrototype} (options : LadcPgOptions)
    (s : statement)
    (params : option SqlParameters) : Prog BasicExecResult :=
  let rw := addReturningToInsert (sql s) options in
  merged ← lift (mergeParams (boundParams s) params);
  values ← lift (toPositionalParameters merged);
  result ← query {| name := Some (psName s); text := rw_sql rw;
                    values := values |};
  mret (toBasicExecResult result (rw_insertTable rw) (rw_idColumnName rw)).

(** [all: async (params?) => ...] *)
Definition all (s : statement) (params : option SqlParameters)
  : Prog (list Row) :=
  merged ← lift (mergeParams (boundParams s) params);
  values ← lift (toPositionalParameters merged);
  result ← query {| name := Some (psName s); text := sql s;
                    values := values |};
  mret (toRows result).

(** [cursor: async (params?) => ...] *)
Definition cursor (options : LadcPgOptions) (s : statement)
    (params : option SqlParameters) : Prog InMemoryCursor.cursor :=
  if negb (inMemoryCursor options)
  then Raise (js "Cursor is not available. Maybe use the option 'inMemoryCursor'.")
  else
    merged ← lift (mergeParams (boundParams s) params);
    values ← lift (toPositionalParameters merged);
    result ← query {| name := Some (psName s); text := sql s;
                      values := values |};
    mret (InMemoryCursor.makeInMemoryCursor (Some (VObject <$> toRows result))).

(** [close: async () => { }] *)
Definition close (s : statement) : Prog unit := mret tt.

End PreparedStatement.

(** ** The connection: [toBasicMainConnection(client, options)] *)

Module MainConnection.

(** [prepare: async (sql, params?) => ...] *)
Definition prepare (psSequence : Z) (sql : list N)
    (params : option SqlParameters) : Z * PreparedStatement.statement :=
  PreparedStatement.makeBasicPreparedStatement psSequence sql params.

(** [exec: async (sql, params?) => ...] *)
Definition exec `{CaseMapping} `{ObjectPrototype} (options : LadcPgOptions)
    (sql : list N) (params : option SqlParameters) : Prog BasicExecResult :=
  let rw := addReturningToInsert sql options in
  values ← lift (toPositionalParameters params);
  result ← query {| name := None; text := rw_sql rw; values := values |};
  mret (toBasicExecResult result (rw_insertTable rw) (rw_idColumnName rw)).

(** [all: async (sql, params?) => ...] *)
Definition all (sql : list N) (params : option SqlParameters)
  : Prog (list Row) :=
  values ← lift (toPositionalParameters params);
  result ← query {| name := None; text := sql; values := values |};
  mret (toRows result).

(** [cursor: async (sql, params?) => ...] *)
Definition cursor (options : LadcPgOptions) (sql : list N)
    (params : option SqlParameters) : Prog InMemoryCursor.cursor :=
  if negb (inMemoryCursor options)
  then Raise (js "Cursor is not available. Maybe use the option 'inMemoryCursor'.")
  else
    values ← lift (toPositionalParameters params);
    result ← query {| name := None; text := sql; values := values |};
    mret (InMemoryCursor.makeInMemoryCursor (Some (VObject <$> toRows result))).

(** [script: async (sql) => { await client.query(sql) }]; the engine
    reads a query given as a string as the query config of that text. *)
Definition script (sql : list N) : Prog unit :=
  _ ← query {| name := None; text := sql; values := None |};
  mret tt.

(** [close: async () => { await client.end() }] *)
Definition close : Prog unit := End (Return tt).

End MainConnection.

(** ** Vocabulary of the properties *)

(** The callback of [mergeParams]: [(val, index) => result[index] = val]. *)
Definition assign : any -> nat -> list (option any) -> list (option any) :=
  fun val index result => arr_write result index val.

(** [Array.isArray(params)] *)
Definition isArray (params : SqlParameters) : bool :=
  match params with
  | Positional _ => true
  | Named _ => false
  end.

(** The calls a consumer makes on a cursor, and their results in order. *)
Inductive call : Type :=
| CallNext
| CallReturn.

Definition step (o : call) (c : InMemoryCursor.cursor)
  : InMemoryCursor.IteratorResult * InMemoryCursor.cursor :=
  match o with
  | CallNext => InMemoryCursor.next c
  | CallReturn => InMemoryCursor.return_ c
  end.

Fixpoint calls (os : list call) (c : InMemoryCursor.cursor)
  : list InMemoryCursor.IteratorResult * InMemoryCursor.cursor :=
  match os with
  | [] => ([], c)
  | o :: os =>
      let (r, c) := step o c in
      let (rs, c) := calls os c in
      (r :: rs, c)
  end.

(** [{ done: false, value: row }] and [{ done: true, value: undefined }] *)
Definition yield (row : any) : InMemoryCursor.IteratorResult :=
  {| InMemoryCursor.done := false; InMemoryCursor.value := row |}.

Definition terminated : InMemoryCursor.IteratorResult :=
  {| InMemoryCursor.done := true; InMemoryCursor.value := VUndefined |}.

(** The failures, by the names the design gives them. *)
Definition NotImplemented : list N :=
  js "Named parameters are not implemented".

Definition StyleMismatch : list N :=
  js "Cannot merge named parameters with positioned parameters".

Definition FeatureDisabled : list N :=
  js "Cursor is not available. Maybe use the option 'inMemoryCursor'.".

Definition MissingRow : list N :=
  js "Cannot get the inserted ID, please append 'returning your_column_id' to your query".

Definition AmbiguousRow (count : nat) : list N :=
  js "Cannot get the inserted ID, there must be one result row ("
  ++ ofN (N.of_nat count) ++ js ")".

Definition UnknownColumn (col : list N) (row : Row) : list N :=
  js "Cannot get the inserted ID '" ++ col ++ js "', available columns are: "
  ++ join (js ", ") (Object_keys row).

Definition UnresolvedInsertedId (row : Row) : list N :=
  js "Cannot get the inserted ID, available columns are: "
  ++ join (js ", ") (Object_keys row).

(** No name: [undefined], or the empty string, which [if (s)] treats
    alike. *)
Definition absent (s : option (list N)) : Prop := s = None \/ s = Some [].

(** Whether a regular expression holds a capturing group, and whether
    every match of it consumes input. *)
Fixpoint has_group (r : regex) : bool :=
  match r with
  | Bol | Eol | Atom _ => false
  | Seq r1 r2 => has_group r1 || has_group r2
  | Star r1 | Opt r1 => has_group r1
  | Group _ _ => true
  end.

Fixpoint consuming (r : regex) : bool :=
  match r with
  | Atom _ => true
  | Seq r1 r2 => consuming r1 || consuming r2
  | Group _ r1 => consuming r1
  | Bol | Eol | Star _ | Opt _ => false
  end.

(** How the state at the end of a match of [r] relates to the state at
    its start. *)
Definition reaches (r : regex) (s s' : mstate) : Prop :=
  (pos s <= pos s')%nat
  /\ (pos s' + length (rest s') = pos s + length (rest s))%nat
  /\ (has_group r = false -> caps s' = caps s)
  /\ (consuming r = true -> (pos s < pos s')%nat).

(** The table reads a member of [Object.prototype] in the mapping: a
    mapping is configured, it has no entry of its own for the table, and
    the table bears the name of a member. *)
Definition reads_inherited `{ObjectPrototype} (options : LadcPgOptions)
    (table : list N) : bool :=
  match autoincMapping options with
  | Some mapping =>
      match mapping !! table, inherited table with
      | None, Some _ => true
      | _, _ => false
      end
  | None => false
  end.

(** The table a statement inserts into, as [insertRegexp] reads it. *)
Definition insertTable_of (sql : list N) : option (list N) :=
  match exec insertRegexp sql with
  | Some matches => capture matches 1
  | None => None
  end.

(** The case mappings on strings of ASCII characters, where they move
    the letters by 32 and keep everything else. *)
Definition ascii_lower (s : list N) : list N :=
  List.map (fun c => if ((65 <=? c) && (c <=? 90))%N then (c + 32)%N else c) s.

Definition ascii_upper (s : list N) : list N :=
  List.map (fun c => if ((97 <=? c) && (c <=? 122))%N then (c - 32)%N else c) s.

Definition ascii_case : CaseMapping.
Proof.
  refine {| toLowerCase := ascii_lower; toUpperCase := ascii_upper |}.
  intros [|c tl] Hs; [congruence | discriminate].
Defined.

(** The case mappings on strings of ASCII characters and the Kelvin sign
    U+212A, whose lower case is the letter k and which has no other upper
    case than itself. *)
Definition kelvin_lower (s : list N) : list N :=
  List.map (fun c => if (c =? 8490)%N then 107%N else c) (ascii_lower s).

Definition kelvin_case : CaseMapping.
Proof.
  refine {| toLowerCase := kelvin_lower; toUpperCase := ascii_upper |}.
  intros [|c tl] Hs; [congruence | discriminate].
Defined.

(** The members of [Object.prototype] in Node.js: the built-in methods,
    which convert to the text of a native function, and the accessor
    [__proto__], which yields [Object.prototype] itself. *)
Definition native (name : string) : list N * list N :=
  (js name, js "function " ++ js name ++ js "() { [native code] }").

Definition node_members : list (list N * list N) :=
  [ (js "constructor", js "function Object() { [native code] }");
    native "__defineGetter__"; native "__defineSetter__";
    native "hasOwnProperty"; native "__lookupGetter__";
    native "__lookupSetter__"; native "isPrototypeOf";
    native "propertyIsEnumerable"; native "toString"; native "valueOf";
    (js "__proto__", js "[object Object]"); native "toLocaleString" ].

#[global] Instance node_prototype : ObjectPrototype.
Proof.
  refine {| inherited := fun name =>
              snd <$> List.find (fun member => bool_decide (fst member = name))
                        node_members |}.
  intros name text Hfind.
  destruct (List.find _ node_members) as [member|] eqn:E; [|discriminate].
  apply find_some in E as [Hin _]. injection Hfind as <-.
  simpl in Hin.
  repeat (destruct Hin as [<-|Hin]; [discriminate|]). destruct Hin.
Defined.

(** ** Vocabulary of the further properties *)


(** A named set of parameters. *)
Definition is_named (params : option SqlParameters) : bool :=
  match params with
  | Some (Named _) => true
  | _ => false
  end.

(** An ordered set of parameters. *)
Definition is_positional (params : option SqlParameters) : bool :=
  match params with
  | Some (Positional _) => true
  | _ => false
  end.


(** The strings a regular expression spells out, anchors and groups
    left aside. *)
Fixpoint lang (r : regex) (w : list N) : Prop :=
  match r with
  | Bol | Eol => w = []
  | Atom p => exists c, w = [c] /\ p c = true
  | Seq r1 r2 => exists w1 w2, w = w1 ++ w2 /\ lang r1 w1 /\ lang r2 w2
  | Star r1 => exists pieces, w = concat pieces /\ Forall (lang r1) pieces
  | Opt r1 => w = [] \/ lang r1 w
  | Group _ r1 => lang r1 w
  end.

(** Whether a regular expression is free of [^] and [$]. *)
Fixpoint anchor_free (r : regex) : bool :=
  match r with
  | Bol | Eol => false
  | Atom _ => true
  | Seq r1 r2 => anchor_free r1 && anchor_free r2
  | Star r1 | Opt r1 | Group _ r1 => anchor_free r1
  end.

(** A run of white space. *)
Definition spaces (w : list N) : Prop :=
  Forall (fun c => white_space c = true) w.

(** A keyword in any mix of upper and lower case. *)
Definition keyword (kw : string) (w : list N) : Prop :=
  List.map canonicalize w = List.map canonicalize (js kw).

(** A table token: one code unit at least, none of them white space or
    an opening parenthesis. *)
Definition token (w : list N) : Prop :=
  w <> [] /\ Forall (fun c => white_space c = false /\ c <> 40%N) w.

(** A column list: nothing, or a parenthesis around a non-empty text
    without a closing parenthesis. *)
Definition column_list (w : list N) : Prop :=
  w = [] \/
  exists inner, w = [40%N] ++ inner ++ [41%N]
                /\ inner <> [] /\ Forall (fun c => c <> 41%N) inner.

(** The parts of an insert statement, in the order of the text. *)
Record InsertParts : Type := {
  p_lead : list N;       (* white space before the statement *)
  p_insert : list N;     (* insert *)
  p_gap1 : list N;
  p_into : list N;       (* into *)
  p_gap2 : list N;
  p_table : list N;      (* the table *)
  p_gap3 : list N;
  p_columns : list N;    (* the column list, if any *)
  p_gap4 : list N;
  p_values : list N;     (* values *)
  p_gap5 : list N;
  p_body : list N;       (* what stands between the outer parentheses *)
  p_trail : list N       (* white space after the statement *)
}.

Definition assemble (p : InsertParts) : list N :=
  p_lead p ++ p_insert p ++ p_gap1 p ++ p_into p ++ p_gap2 p ++ p_table p
  ++ p_gap3 p ++ p_columns p ++ p_gap4 p ++ p_values p ++ p_gap5 p
  ++ [40%N] ++ p_body p ++ [41%N] ++ p_trail p.

Definition well_formed (p : InsertParts) : Prop :=
  spaces (p_lead p)
  /\ keyword "insert" (p_insert p)
  /\ spaces (p_gap1 p) /\ p_gap1 p <> []
  /\ keyword "into" (p_into p)
  /\ spaces (p_gap2 p) /\ p_gap2 p <> []
  /\ token (p_table p)
  /\ spaces (p_gap3 p)
  /\ column_list (p_columns p)
  /\ spaces (p_gap4 p)
  /\ keyword "values" (p_values p)
  /\ spaces (p_gap5 p)
  /\ spaces (p_trail p).


(** [insertRegexp] behind the table: from the gap after the table to the
    end of the text. *)
Definition insert_tail : regex :=
  seqs [ Star s_class;
         Opt (seqs [chr "("; Plus not_close_paren; chr ")"]);
         Star s_class; word "values"; Star s_class; chr "(";
         Star any_unit; chr ")"; Star s_class; Eol ].

(** The text behind the table. *)
Definition behind_table (p : InsertParts) : list N :=
  p_gap3 p ++ p_columns p ++ p_gap4 p ++ p_values p ++ p_gap5 p
  ++ [40%N] ++ p_body p ++ [41%N] ++ p_trail p.

(** The table is set off from what follows: by white space, or by the
    parenthesis of a column list. *)
Definition table_set_off (p : InsertParts) : Prop :=
  p_gap3 p <> [] \/ p_columns p <> [].


(** The text [R] does not go on with a code unit of the set [p]. *)
Definition stops (p : N -> bool) (R : list N) : Prop :=
  match R with
  | [] => True
  | x :: _ => p x = false
  end.


(** The slots of an array up to its last element: its length without the
    holes at the end. *)
Fixpoint extent (a : list (option any)) : nat :=
  match a with
  | [] => 0
  | slot :: tl =>
      match extent tl, slot with
      | O, None => 0
      | n, _ => S n
      end
  end.


(** The calls that change a prepared statement, and a statement after a
    series of them; a call that fails leaves the statement as it was. *)
Inductive rebinding : Type :=
| DoBind (k : key) (v : any)
| DoUnbind (k : key).

Definition rebind (o : rebinding) (s : PreparedStatement.statement)
  : PreparedStatement.statement :=
  match
    match o with
    | DoBind k v => PreparedStatement.bind k v s
    | DoUnbind k => PreparedStatement.unbind k s
    end
  with
  | Ok s' => s'
  | Throw _ | Fault _ => s
  end.

Definition rebind_all (os : list rebinding) (s : PreparedStatement.statement)
  : PreparedStatement.statement :=
  fold_left (fun s o => rebind o s) os s.

(** * Properties *)

(** ** Arrays *)

Lemma arr_write_length (a : list (option any)) (i : nat) (v : any) :
  length (arr_write a i v) = Nat.max (length a) (S i).
Proof.
  unfold arr_write. destruct (Nat.ltb_spec i (length a)).
  - rewrite length_insert. lia.
  - rewrite !length_app, length_replicate. simpl. lia.
Qed.

Lemma arr_write_lookup (a : list (option any)) (i : nat) (v : any) :
  arr_write a i v !! i = Some (Some v).
Proof.
  unfold arr_write. destruct (Nat.ltb_spec i (length a)).
  - by apply list_lookup_insert_eq.
  - rewrite lookup_app_r by lia.
    rewrite lookup_app_r by (rewrite length_replicate; lia).
    rewrite length_replicate.
    by replace (i - length a - (i - length a))%nat with 0%nat by lia.
Qed.

Lemma arr_write_read (a : list (option any)) (i : nat) (v : any) :
  arr_read (arr_write a i v) i = v.
Proof. unfold arr_read. by rewrite arr_write_lookup. Qed.

Lemma arr_write_read_ne (a : list (option any)) (i j : nat) (v : any) :
  i ≠ j → arr_read (arr_write a i v) j = arr_read a j.
Proof.
  intros Hne. unfold arr_read, arr_write.
  destruct (Nat.ltb_spec i (length a)).
  - by rewrite list_lookup_insert_ne.
  - destruct (Nat.lt_ge_cases j (length a)).
    + by rewrite lookup_app_l.
    + rewrite (lookup_ge_None_2 a j) by lia.
      rewrite lookup_app_r by lia.
      destruct (Nat.lt_ge_cases (j - length a) (i - length a)).
      * rewrite lookup_app_l by (rewrite length_replicate; lia).
        by rewrite lookup_replicate_2.
      * rewrite lookup_app_r by (rewrite length_replicate; lia).
        rewrite length_replicate.
        destruct (j - length a - (i - length a))%nat as [|n] eqn:E; [lia|].
        done.
Qed.

Lemma spread_read (a : list (option any)) (i : nat) :
  arr_read (spread a) i = arr_read a i.
Proof.
  unfold arr_read, spread. rewrite list_lookup_fmap.
  by destruct (a !! i) as [[v|]|].
Qed.

Lemma forEach_assign_untouched (p2 : list (option any)) :
  ∀ (index : nat) (result : list (option any)) (i : nat),
    (∀ j v, p2 !! j = Some (Some v) → i ≠ (index + j)%nat) →
    arr_read (forEach p2 index assign result) i = arr_read result i.
Proof.
  induction p2 as [|[val|] tl IH]; intros index result i Hi; simpl.
  - done.
  - rewrite IH.
    + unfold assign. apply arr_write_read_ne.
      specialize (Hi 0%nat val eq_refl). lia.
    + intros j v Hj. specialize (Hi (S j) v Hj). lia.
  - apply IH. intros j v Hj. specialize (Hi (S j) v Hj). lia.
Qed.

Lemma forEach_assign_written (p2 : list (option any)) :
  ∀ (index : nat) (result : list (option any)) (j : nat) (v : any),
    p2 !! j = Some (Some v) →
    arr_read (forEach p2 index assign result) (index + j) = v.
Proof.
  induction p2 as [|slot tl IH]; intros index result j v Hj; [done|].
  destruct j as [|j]; simpl in Hj.
  - injection Hj as ->. simpl.
    rewrite forEach_assign_untouched by (intros; lia).
    unfold assign. rewrite Nat.add_0_r. apply arr_write_read.
  - replace (index + S j)%nat with (S index + j)%nat by lia.
    destruct slot; cbn [forEach]; by apply (IH (S index)).
Qed.

(** Merging two ordered sets, slot by slot: a slot present in the
    override is taken from it, any other slot reads as in the base. *)
Lemma mergeParams_positional (p1 p2 : jsarray) :
  ∃ merged,
    mergeParams (Some (Positional p1)) (Some (Positional p2))
    = Ok (Some (Positional merged))
    ∧ (∀ i v, elems p2 !! i = Some (Some v) → arr_read (elems merged) i = v)
    ∧ (∀ i, (∀ v, elems p2 !! i ≠ Some (Some v)) →
            arr_read (elems merged) i = arr_read (elems p1) i).
Proof.
  eexists. split; [reflexivity|]. simpl. split.
  - intros i v Hi. by apply (forEach_assign_written _ 0%nat).
  - intros i Hi. fold assign.
    rewrite forEach_assign_untouched; [apply spread_read|].
    intros j v Hj ->. by apply (Hi v).
Qed.

(** ** Merging parameters *)

(** C5. [mergeParams] returns the other side unchanged when a side is
    absent; an ordered set and a named set do not merge (the failure of
    the style mismatch); two ordered sets give the base with every slot
    present in the override overwritten, so that [[a, b]] and [[x]] give
    [[x, b]]; two named sets give the union of the keys, the override
    winning where both have a key. *)
Theorem mergeParams_spec :
  (∀ params2, mergeParams None params2 = Ok params2)
  ∧ (∀ params1, mergeParams params1 None = Ok params1)
  ∧ (∀ a o,
       mergeParams (Some (Positional a)) (Some (Named o))
       = Throw (js "Cannot merge named parameters with positioned parameters")
       ∧ mergeParams (Some (Named o)) (Some (Positional a))
         = Throw (js "Cannot merge named parameters with positioned parameters"))
  ∧ (∀ p1 p2, ∃ merged,
       mergeParams (Some (Positional p1)) (Some (Positional p2))
       = Ok (Some (Positional merged))
       ∧ (∀ i v, elems p2 !! i = Some (Some v) → arr_read (elems merged) i = v)
       ∧ (∀ i, (∀ v, elems p2 !! i ≠ Some (Some v)) →
               arr_read (elems merged) i = arr_read (elems p1) i))
  ∧ (∀ a b x,
       mergeParams (Some (Positional (JsArray [Some a; Some b] ∅)))
                   (Some (Positional (JsArray [Some x] ∅)))
       = Ok (Some (Positional (JsArray [Some x; Some b] ∅))))
  ∧ (∀ o1 o2, ∃ merged,
       mergeParams (Some (Named o1)) (Some (Named o2)) = Ok (Some (Named merged))
       ∧ ∀ k, merged !! k = match o2 !! k with
                            | Some v => Some v
                            | None => o1 !! k
                            end).
Proof.
  repeat split.
  - intros params1. by destruct params1 as [[a|o]|].
  - apply mergeParams_positional.
  - intros o1 o2. eexists. split; [reflexivity|].
    intros k. rewrite lookup_union.
    by destruct (o2 !! k), (o1 !! k).
Qed.

Lemma mergeParams_spec_witness :
  ∃ merged,
    mergeParams
      (Some (Positional (JsArray [Some (VNumber 1); None; Some (VNumber 3)] ∅)))
      (Some (Positional (JsArray [None; Some (VNumber 7)] ∅)))
    = Ok (Some (Positional merged))
    ∧ arr_read (elems merged) 1 = VNumber 7
    ∧ arr_read (elems merged) 2 = VNumber 3.
Proof.
  destruct mergeParams_spec as (_ & _ & _ & Hpos & _).
  destruct (Hpos (JsArray [Some (VNumber 1); None; Some (VNumber 3)] ∅)
                 (JsArray [None; Some (VNumber 7)] ∅))
    as (merged & Heq & Hover & Hbase).
  exists merged. split; [exact Heq|]. split.
  - apply Hover. reflexivity.
  - rewrite Hbase; [reflexivity|]. intros v. discriminate.
Defined.

(** ** Binding and unbinding *)

Lemma round_exact (x : Z) :
  Z.abs x ≤ 9007199254740992 → JsNumber.round x = x.
Proof.
  intros Hx. unfold JsNumber.round. cbv zeta.
  by rewrite (proj2 (Z.leb_le _ _) Hx).
Qed.

Lemma sub_exact (x : Z) :
  -9007199254740992 < x ≤ 9007199254740992 → JsNumber.sub x 1 = x - 1.
Proof. intros Hx. apply round_exact. lia. Qed.


Lemma ofZ_natural (z : Z) : 0 ≤ z → ofZ z = ofN (Z.to_N z).
Proof. intros Hz. unfold ofZ. by rewrite (proj2 (Z.ltb_ge _ _)) by lia. Qed.

Lemma toString_exact (z : Z) :
  0 ≤ z ≤ 9007199254740992 → JsNumber.toString z = ofZ z.
Proof.
  intros Hz. unfold JsNumber.toString. cbv zeta.
  rewrite (proj2 (Z.ltb_ge _ _)), Z.abs_eq by lia.
  rewrite (proj2 (Z.leb_le _ _)) by lia. by rewrite ofZ_natural by lia.
Qed.

Lemma put_number_stored (a : jsarray) (z : Z) (v : any) :
  0 ≤ z < 4294967295 →
  ∃ a', put (Positional a) z v = Positional a'
        ∧ elems a' !! Z.to_nat z = Some (Some v).
Proof.
  intros Hz. simpl.
  replace ((0 <=? z) && (z <? 4294967295)) with true by lia.
  eexists. split; [reflexivity|]. apply arr_write_lookup.
Qed.

Lemma arr_write_kept (a : list (option any)) (i j : nat) (v : any)
    (slot : option any) :
  i ≠ j → a !! j = Some slot → arr_write a i v !! j = Some slot.
Proof.
  intros Hne Hj. unfold arr_write. destruct (Nat.ltb_spec i (length a)).
  - by rewrite list_lookup_insert_ne.
  - rewrite lookup_app_l; [done|]. by eapply lookup_lt_Some.
Qed.

(** Writing a slot of an array: the slot holds the value, every other
    slot of the array is as it was, the array grows just enough to hold
    the slot, and the properties that are no slots are untouched. *)
Lemma put_slot (a : jsarray) (z : Z) (v : any) :
  0 ≤ z < 4294967295 →
  ∃ a', put (Positional a) z v = Positional a'
        ∧ elems a' !! Z.to_nat z = Some (Some v)
        ∧ (∀ i slot, i ≠ Z.to_nat z → elems a !! i = Some slot →
                     elems a' !! i = Some slot)
        ∧ length (elems a') = Nat.max (length (elems a)) (S (Z.to_nat z))
        ∧ extra a' = extra a.
Proof.
  intros Hz. simpl.
  replace ((0 <=? z) && (z <? 4294967295)) with true by lia.
  eexists. split; [reflexivity|]. cbn [elems extra].
  split; [apply arr_write_lookup|]. split; [|split; [apply arr_write_length|done]].
  intros i slot Hi Hslot. by apply arr_write_kept.
Qed.

(** C9. [bind] with a numeric position [p] allocates the ordered sequence
    when none is bound and stores the value at slot [p - 1]; [unbind] with
    a numeric key [k] stores [undefined] at slot [k] itself when a
    sequence is bound, and does nothing when none is. The slots of a
    sequence are numbered from 0 up to [2^32 - 2]; the statement keeps
    its name and its text, and the other slots what they held. On a bound
    named set the slot is the property that the number names. For any
    number, the key of [bind] is the number [p - 1] as the subtraction of
    doubles gives it, which up to [2^53] is the integer [p - 1]. *)
Theorem bind_unbind_numeric (s : PreparedStatement.statement) :
  (∀ p v, ∃ s' params,
     PreparedStatement.bind (KNumber p) v s = Ok s'
     ∧ PreparedStatement.psName s' = PreparedStatement.psName s
     ∧ PreparedStatement.sql s' = PreparedStatement.sql s
     ∧ PreparedStatement.boundParams s' = Some params
     ∧ params
       = put (default (Positional (JsArray [] ∅))
                (PreparedStatement.boundParams s))
           (JsNumber.sub p 1) v
     ∧ (-9007199254740992 < p ≤ 9007199254740992 → JsNumber.sub p 1 = p - 1)
     ∧ (PreparedStatement.boundParams s = None →
        isArray params = true
        ∧ (1 ≤ p ≤ 4294967295 →
           params = Positional
                      (JsArray (replicate (Z.to_nat (p - 1)) None ++ [Some v])
                               ∅)))
     ∧ (∀ a, PreparedStatement.boundParams s = Some (Positional a) →
        1 ≤ p ≤ 4294967295 →
        ∃ a', params = Positional a'
              ∧ elems a' !! Z.to_nat (p - 1) = Some (Some v)
              ∧ (∀ i slot, i ≠ Z.to_nat (p - 1) → elems a !! i = Some slot →
                           elems a' !! i = Some slot)
              ∧ length (elems a') = Nat.max (length (elems a)) (Z.to_nat p)
              ∧ extra a' = extra a)
     ∧ (∀ o, PreparedStatement.boundParams s = Some (Named o) →
        1 ≤ p ≤ 4294967295 →
        params = Named (<[ofZ (p - 1) := v]> o)))
  ∧ (∀ k,
     (PreparedStatement.boundParams s = None →
      PreparedStatement.unbind (KNumber k) s = Ok s)
     ∧ (∀ bound, PreparedStatement.boundParams s = Some bound →
        ∃ s',
          PreparedStatement.unbind (KNumber k) s = Ok s'
          ∧ PreparedStatement.psName s' = PreparedStatement.psName s
          ∧ PreparedStatement.sql s' = PreparedStatement.sql s
          ∧ PreparedStatement.boundParams s'
            = Some (put bound k VUndefined))
     ∧ (∀ a, PreparedStatement.boundParams s = Some (Positional a) →
        0 ≤ k < 4294967295 →
        ∃ s' a',
          PreparedStatement.unbind (KNumber k) s = Ok s'
          ∧ PreparedStatement.psName s' = PreparedStatement.psName s
          ∧ PreparedStatement.sql s' = PreparedStatement.sql s
          ∧ PreparedStatement.boundParams s' = Some (Positional a')
          ∧ elems a' !! Z.to_nat k = Some (Some VUndefined)
          ∧ (∀ i slot, i ≠ Z.to_nat k → elems a !! i = Some slot →
                       elems a' !! i = Some slot)
          ∧ length (elems a') = Nat.max (length (elems a)) (S (Z.to_nat k))
          ∧ extra a' = extra a)
     ∧ (∀ o, PreparedStatement.boundParams s = Some (Named o) →
        0 ≤ k < 4294967295 →
        ∃ s',
          PreparedStatement.unbind (KNumber k) s = Ok s'
          ∧ PreparedStatement.psName s' = PreparedStatement.psName s
          ∧ PreparedStatement.sql s' = PreparedStatement.sql s
          ∧ PreparedStatement.boundParams s'
            = Some (Named (<[ofZ k := VUndefined]> o)))).
Proof.
  split.
  - intros p v. unfold PreparedStatement.bind. do 2 eexists.
    split; [reflexivity|]. do 3 (split; [reflexivity|]).
    split; [by destruct (PreparedStatement.boundParams s)|].
    split; [apply sub_exact|]. split.
    + intros ->. split.
      * simpl. by destruct ((0 <=? JsNumber.sub p 1)
                            && (JsNumber.sub p 1 <? 4294967295)).
      * intros Hp. rewrite sub_exact by lia. simpl.
        replace ((0 <=? p - 1) && (p - 1 <? 4294967295)) with true by lia.
        unfold arr_write. simpl. by rewrite Nat.sub_0_r.
    + split.
      * intros a -> Hp. rewrite sub_exact by lia.
        destruct (put_slot a (p - 1) v ltac:(lia))
          as (a' & -> & Hst & Hkept & Hlen & Hextra).
        exists a'. split; [reflexivity|]. split; [exact Hst|].
        split; [exact Hkept|]. split; [|exact Hextra].
        rewrite Hlen. f_equal. lia.
      * intros o -> Hp. rewrite sub_exact by lia.
        cbn [put]. by rewrite toString_exact by lia.
  - intros k. unfold PreparedStatement.unbind. split; [|split; [|split]].
    + by intros ->.
    + intros bound ->. by eexists.
    + intros a -> Hk. cbn [put_undefined mbind outcome_mbind outcome_bind].
      destruct (put_slot a k VUndefined Hk)
        as (a' & -> & Hst & Hkept & Hlen & Hextra).
      exists (PreparedStatement.with_boundParams s (Some (Positional a'))), a'.
      by repeat split.
    + intros o -> Hk.
      cbn [put_undefined put mbind outcome_mbind outcome_bind].
      rewrite toString_exact by lia. by eexists.
Qed.

Lemma bind_unbind_numeric_witness :
  let fresh := {| PreparedStatement.psName := js "ladc-ps-1";
                  PreparedStatement.sql := js "select $1, $2, $3";
                  PreparedStatement.boundParams := None |} in
  let bound := {| PreparedStatement.psName := js "ladc-ps-2";
                  PreparedStatement.sql := js "select $1, $2, $3";
                  PreparedStatement.boundParams :=
                    Some (Positional
                            (JsArray [Some (VNumber 1); Some (VNumber 2);
                                      Some (VNumber 3)] ∅)) |} in
  let named := {| PreparedStatement.psName := js "ladc-ps-3";
                  PreparedStatement.sql := js "select $1";
                  PreparedStatement.boundParams :=
                    Some (Named {[ js "a" := VNumber 1 ]}) |} in
  (∃ s',
     PreparedStatement.bind (KNumber 2) (VNumber 5) fresh = Ok s'
     ∧ PreparedStatement.boundParams s'
       = Some (Positional (JsArray [None; Some (VNumber 5)] ∅)))
  ∧ (∃ s' a',
       PreparedStatement.bind (KNumber 2) (VNumber 5) bound = Ok s'
       ∧ PreparedStatement.psName s' = js "ladc-ps-2"
       ∧ PreparedStatement.boundParams s' = Some (Positional a')
       ∧ elems a' !! 1%nat = Some (Some (VNumber 5))
       ∧ elems a' !! 0%nat = Some (Some (VNumber 1))
       ∧ elems a' !! 2%nat = Some (Some (VNumber 3))
       ∧ length (elems a') = 3%nat)
  ∧ (∃ s',
       PreparedStatement.bind (KNumber 2) (VNumber 5) named = Ok s'
       ∧ PreparedStatement.boundParams s'
         = Some (Named (<[js "1" := VNumber 5]> {[ js "a" := VNumber 1 ]})))
  ∧ PreparedStatement.unbind (KNumber 1) fresh = Ok fresh
  ∧ (∃ s' a',
       PreparedStatement.unbind (KNumber 1) bound = Ok s'
       ∧ PreparedStatement.boundParams s' = Some (Positional a')
       ∧ elems a' !! 1%nat = Some (Some VUndefined)
       ∧ elems a' !! 0%nat = Some (Some (VNumber 1))
       ∧ elems a' !! 2%nat = Some (Some (VNumber 3))
       ∧ length (elems a') = 3%nat).
Proof.
  intros fresh bound named. split; [|split; [|split; [|split]]].
  - destruct (proj1 (bind_unbind_numeric fresh) 2 (VNumber 5))
      as (s' & params & Hbind & _ & _ & Hbound & _ & _ & Hnone & _).
    exists s'. split; [exact Hbind|].
    destruct (Hnone eq_refl) as [_ Hnew].
    rewrite Hbound, Hnew by lia. reflexivity.
  - destruct (proj1 (bind_unbind_numeric bound) 2 (VNumber 5))
      as (s' & params & Hbind & Hname & _ & Hbound & _ & _ & _ & Harr & _).
    destruct (Harr _ eq_refl ltac:(lia))
      as (a' & -> & Hst & Hkept & Hlen & _).
    exists s', a'. split; [exact Hbind|]. split; [exact Hname|].
    split; [exact Hbound|]. split; [exact Hst|].
    split; [apply Hkept; [lia | reflexivity]|].
    split; [apply Hkept; [lia | reflexivity]|]. exact Hlen.
  - destruct (proj1 (bind_unbind_numeric named) 2 (VNumber 5))
      as (s' & params & Hbind & _ & _ & Hbound & _ & _ & _ & _ & Hobj).
    exists s'. split; [exact Hbind|].
    rewrite Hbound, (Hobj _ eq_refl) by lia. reflexivity.
  - apply (proj2 (bind_unbind_numeric fresh) 1). reflexivity.
  - destruct (proj1 (proj2 (proj2 (proj2 (bind_unbind_numeric bound) 1)))
                _ eq_refl ltac:(lia))
      as (s' & a' & Hunbind & _ & _ & Hbound & Hst & Hkept & Hlen & _).
    exists s', a'. split; [exact Hunbind|]. split; [exact Hbound|].
    split; [exact Hst|].
    split; [apply Hkept; [lia | reflexivity]|].
    split; [apply Hkept; [lia | reflexivity]|]. exact Hlen.
Defined.

(** [bind] counts positions from 1 and [unbind] from 0: unbinding the
    position that was just bound leaves the value where it is. *)
Example bind_then_unbind_same_key :
  let s := {| PreparedStatement.psName := js "ladc-ps-1";
              PreparedStatement.sql := js "select $1";
              PreparedStatement.boundParams := None |} in
  ∃ s1 s2,
    PreparedStatement.bind (KNumber 1) (VNumber 5) s = Ok s1
    ∧ PreparedStatement.unbind (KNumber 1) s1 = Ok s2
    ∧ PreparedStatement.boundParams s2
      = Some (Positional (JsArray [Some (VNumber 5); Some VUndefined] ∅)).
Proof. intros s. do 2 eexists. repeat split. Qed.

(** ** Named parameters *)

Lemma toPositionalParameters_named (o : gmap (list N) any) :
  toPositionalParameters (Some (Named o))
  = Throw (js "Named parameters are not implemented").
Proof. reflexivity. Qed.

Lemma bind_string_key (k : list N) (v : any) (s : PreparedStatement.statement) :
  PreparedStatement.bind (KString k) v s
  = Throw (js "Named parameters are not implemented").
Proof. reflexivity. Qed.

(** [unbind] refuses no key for being a string: its one failure is the
    [RangeError] of the key [length] on a bound array. *)
Lemma unbind_fails_on_length_only (k : key) (s : PreparedStatement.statement) :
  (∃ s', PreparedStatement.unbind k s = Ok s')
  ∨ (PreparedStatement.unbind k s = Fault RangeError
     ∧ k = KString (js "length")
     ∧ is_positional (PreparedStatement.boundParams s) = true).
Proof.
  unfold PreparedStatement.unbind.
  destruct (PreparedStatement.boundParams s) as [[a|o]|]; [| |by eauto].
  - destruct k as [z|key]; [by left; eexists|].
    cbn [put_undefined]. destruct (array_index key); [by left; eexists|].
    case_bool_decide as Hkey; [|by left; eexists].
    right. by rewrite Hkey.
  - left. destruct k; by eexists.
Qed.

(** A named set of the caller is refused by every operation that hands
    parameters to the engine; next to bound ordered parameters the merge
    fails first. *)
Lemma named_parameters_rejected `{CaseMapping} `{ObjectPrototype}
    (options : LadcPgOptions)
    (sql : list N) (o : gmap (list N) any) (s : PreparedStatement.statement) :
  MainConnection.exec options sql (Some (Named o)) = Raise NotImplemented
  ∧ MainConnection.all sql (Some (Named o)) = Raise NotImplemented
  ∧ (inMemoryCursor options = true →
     MainConnection.cursor options sql (Some (Named o)) = Raise NotImplemented)
  ∧ (PreparedStatement.boundParams s = None →
     PreparedStatement.exec options s (Some (Named o)) = Raise NotImplemented
     ∧ PreparedStatement.all s (Some (Named o)) = Raise NotImplemented)
  ∧ (∀ a, PreparedStatement.boundParams s = Some (Positional a) →
     PreparedStatement.exec options s (Some (Named o)) = Raise StyleMismatch
     ∧ PreparedStatement.all s (Some (Named o)) = Raise StyleMismatch).
Proof.
  split; [done|]. split; [done|]. split; [|split].
  - intros Hon. unfold MainConnection.cursor. by rewrite Hon.
  - intros Hnone. unfold PreparedStatement.exec, PreparedStatement.all.
    by rewrite Hnone.
  - intros a Ha. unfold PreparedStatement.exec, PreparedStatement.all.
    by rewrite Ha.
Qed.

(** C8, at [unbind("a")] on a statement bound to [[5]]: the call does not
    fail, it gives the array the property [a] with the value [undefined]. *)
Theorem unbind_string_key_accepted :
  let s := {| PreparedStatement.psName := js "ladc-ps-1";
              PreparedStatement.sql := js "select $1";
              PreparedStatement.boundParams :=
                Some (Positional (JsArray [Some (VNumber 5)] ∅)) |} in
  PreparedStatement.unbind (KString (js "a")) s
  = Ok (PreparedStatement.with_boundParams s
          (Some (Positional
                   (JsArray [Some (VNumber 5)] {[ js "a" := VUndefined ]})))).
Proof. reflexivity. Qed.

(** ** The in-memory cursor *)

Section Cursor.

Import InMemoryCursor.

Lemma at_index_app (skipped : list any) (x : any) (tl : list any) :
  at_index (skipped ++ x :: tl) (Z.of_nat (length skipped) - 1 + 1) = x.
Proof.
  unfold at_index.
  replace (Z.of_nat (length skipped) - 1 + 1) with (Z.of_nat (length skipped)) by lia.
  rewrite (proj2 (Z.ltb_ge _ _)) by lia.
  rewrite Nat2Z.id. by rewrite list_lookup_middle.
Qed.

Lemma at_index_end (rs : list any) :
  at_index rs (Z.of_nat (length rs) - 1 + 1) = VUndefined.
Proof.
  unfold at_index.
  replace (Z.of_nat (length rs) - 1 + 1) with (Z.of_nat (length rs)) by lia.
  rewrite (proj2 (Z.ltb_ge _ _)) by lia.
  rewrite Nat2Z.id. by rewrite lookup_ge_None_2.
Qed.

(** A cursor standing after [skipped] yields the truthy rows that follow,
    one per call of [next]. *)
Lemma next_yields (pre : list any) :
  ∀ (skipped post : list any),
    Forall (fun r => truthy_value r = true) pre →
    calls (replicate (length pre) CallNext)
      {| rows := Some (skipped ++ pre ++ post);
         currentIndex := Z.of_nat (length skipped) - 1 |}
    = (yield <$> pre,
       {| rows := Some (skipped ++ pre ++ post);
          currentIndex := Z.of_nat (length (skipped ++ pre)) - 1 |}).
Proof.
  induction pre as [|x pre IH]; intros skipped post Hpre.
  - simpl. by rewrite app_nil_r.
  - inversion Hpre as [|? ? Hx Hpre']; subst.
    cbn [length replicate calls step]. unfold next at 1. cbn [rows currentIndex].
    change ((x :: pre) ++ post) with (x :: pre ++ post).
    rewrite at_index_app, Hx. cbn [negb].
    replace (Z.of_nat (length skipped) - 1 + 1)
      with (Z.of_nat (length (skipped ++ [x])) - 1)
      by (rewrite length_app; simpl; lia).
    rewrite (cons_middle x skipped (pre ++ post)), app_assoc.
    rewrite (IH (skipped ++ [x]) post Hpre').
    rewrite <- !app_assoc. reflexivity.
Qed.

(** Once the list is dropped, every call reports the same end. *)
Lemma calls_after_end (os : list call) :
  ∀ c, rows c = None →
       Forall (eq terminated) (calls os c).1 ∧ rows (calls os c).2 = None.
Proof.
  induction os as [|o os IH]; intros c Hc; [by split|].
  cbn [calls]. destruct (step o c) as [r c'] eqn:Hstep.
  assert (r = terminated ∧ rows c' = None) as [-> Hc'].
  { destruct o; simpl in Hstep.
    - unfold next in Hstep. rewrite Hc in Hstep.
      inversion Hstep; subst. by split.
    - inversion Hstep; subst. by split. }
  destruct (IH c' Hc') as [Hrs Hend].
  destruct (calls os c') as [rs c'']. simpl in *.
  split; [by constructor|done].
Qed.

(** C7. Over the rows [[r1, r2]], [next()] gives [r1], then [r2], then
    the end without a value; after that end, and after [return()] in any
    state, every further [next()] and [return()] reports the same end. *)
Theorem cursor_two_rows (r1 r2 : Row) :
  ∃ c1 c2 c3,
    next (makeInMemoryCursor (Some [VObject r1; VObject r2]))
    = (yield (VObject r1), c1)
    ∧ next c1 = (yield (VObject r2), c2)
    ∧ next c2 = (terminated, c3)
    ∧ (∀ os, Forall (eq terminated) (calls os c3).1)
    ∧ (∀ c os, Forall (eq terminated) (calls (CallReturn :: os) c).1).
Proof.
  do 3 eexists. repeat split.
  - intros os. by apply calls_after_end.
  - intros c os. cbn [calls step].
    destruct (calls_after_end os (return_ c).2 eq_refl) as [Hos _].
    simpl in *. destruct (calls os _). by constructor.
Qed.

(** C10. When the row list holds a falsy element after truthy ones,
    [next()] yields the truthy ones, reports the end at the falsy element
    and drops the list: no later call yields any of the rows behind it. *)
Theorem cursor_falsy_row (pre post : list any) (f : any) :
  Forall (fun r => truthy_value r = true) pre →
  truthy_value f = false →
  ∃ c1 c2,
    calls (replicate (length pre) CallNext)
      (makeInMemoryCursor (Some (pre ++ f :: post)))
    = (yield <$> pre, c1)
    ∧ next c1 = ({| done := true; value := f |}, c2)
    ∧ rows c2 = None
    ∧ ∀ os, Forall (eq terminated) (calls os c2).1.
Proof.
  intros Hpre Hf. do 2 eexists. split.
  - apply (next_yields pre [] (f :: post) Hpre).
  - unfold next at 1. cbn [rows currentIndex app].
    pose proof (at_index_app pre f post) as Hat. rewrite Hat, Hf. cbn [negb].
    repeat split. intros os. by apply calls_after_end.
Qed.

Lemma cursor_falsy_row_witness :
  ∃ c1 c2,
    calls [CallNext]
      (makeInMemoryCursor
         (Some [VObject [(js "id", VNumber 1)]; VNull;
                VObject [(js "id", VNumber 3)]]))
    = ([yield (VObject [(js "id", VNumber 1)])], c1)
    ∧ next c1 = ({| done := true; value := VNull |}, c2)
    ∧ rows c2 = None
    ∧ ∀ os, Forall (eq terminated) (calls os c2).1.
Proof.
  apply (cursor_falsy_row [VObject [(js "id", VNumber 1)]]
           [VObject [(js "id", VNumber 3)]] VNull).
  - repeat constructor.
  - reflexivity.
Defined.

Lemma calls_app (os1 os2 : list call) :
  ∀ c, calls (os1 ++ os2) c
       = ((calls os1 c).1 ++ (calls os2 (calls os1 c).2).1,
          (calls os2 (calls os1 c).2).2).
Proof.
  induction os1 as [|o os1 IH]; intros c; cbn [calls app].
  - simpl. by destruct (calls os2 c).
  - destruct (step o c) as [r c']. rewrite IH.
    by destruct (calls os1 c'), (calls os2 _).
Qed.

(** Over rows that are all objects the cursor yields every row in order
    and then reports the end. *)
Lemma cursor_yields_all (rs : list Row) :
  ∃ c,
    calls (replicate (length rs) CallNext ++ [CallNext])
      (makeInMemoryCursor (Some (VObject <$> rs)))
    = ((yield <$> (VObject <$> rs)) ++ [terminated], c)
    ∧ rows c = None.
Proof.
  pose proof (next_yields (VObject <$> rs) [] []) as Hall.
  rewrite length_fmap in Hall. cbn [app] in Hall. rewrite app_nil_r in Hall.
  eexists. rewrite calls_app. unfold makeInMemoryCursor.
  change (-1) with (Z.of_nat (@length any []) - 1).
  rewrite Hall by (apply Forall_fmap, Forall_forall; done).
  cbn [fst snd calls step]. unfold next. cbn [rows currentIndex].
  rewrite at_index_end. split; reflexivity.
Qed.

(** [throw(err)] drops the list as well, and hands the failure back. *)
Lemma throw_ends (err : list N) (c : cursor) (os : list call) :
  (throw err c).1 = Throw err
  ∧ Forall (eq terminated) (calls os (throw err c).2).1.
Proof. split; [done|]. by apply calls_after_end. Qed.

End Cursor.

(** ** The regular expression *)

Lemma reaches_refl (r : regex) (s : mstate) :
  consuming r = false → reaches r s s.
Proof. intros Hr. unfold reaches. rewrite Hr. by repeat split. Qed.

Lemma reaches_seq (r1 r2 : regex) (s s1 s2 : mstate) :
  reaches r1 s s1 → reaches r2 s1 s2 → reaches (Seq r1 r2) s s2.
Proof.
  intros (Hp1 & Hl1 & Hc1 & Hm1) (Hp2 & Hl2 & Hc2 & Hm2).
  unfold reaches. cbn [has_group consuming]. repeat split.
  - lia.
  - lia.
  - intros [H1 H2]%orb_false_elim. rewrite Hc2, Hc1; done.
  - intros [H1|H2]%orb_true_elim; [specialize (Hm1 H1) | specialize (Hm2 H2)]; lia.
Qed.

(** A successful match of [r] followed by [k] went through [k], in a
    state that a match of [r] reaches. *)
Lemma rmatch_reaches (r : regex) :
  ∀ k s m, rmatch r k s = Some m → ∃ s', k s' = Some m ∧ reaches r s s'.
Proof.
  induction r as [| |p|r1 IH1 r2 IH2|r1 IH1|r1 IH1|n r1 IH1]; intros k s m Hm;
    cbn [rmatch] in Hm.
  - destruct (Nat.eqb (pos s) 0); [|done]. exists s. split; [done|].
    by apply reaches_refl.
  - destruct (rest s) eqn:E; [|done]. exists s. split; [done|].
    by apply reaches_refl.
  - destruct (rest s) as [|c tl] eqn:E; [done|]. destruct (p c); [|done].
    eexists. split; [exact Hm|]. unfold reaches. simpl. rewrite E. simpl.
    repeat split; lia.
  - apply IH1 in Hm as (s1 & Hm & H1). apply IH2 in Hm as (s2 & Hm & H2).
    exists s2. split; [done|]. by eapply reaches_seq.
  - assert (∀ fuel s0,
      (fix iter (fuel : nat) (s0 : mstate) {struct fuel} : option mstate :=
         match fuel with
         | O => k s0
         | S fuel =>
             match
               rmatch r1
                 (fun s1 =>
                    if Nat.ltb (length (rest s1)) (length (rest s0))
                    then iter fuel s1 else None) s0
             with
             | Some m => Some m
             | None => k s0
             end
         end) fuel s0 = Some m →
      ∃ s', k s' = Some m ∧ reaches (Star r1) s0 s') as Hiter.
    { induction fuel as [|fuel IHf]; intros s0 H0.
      - exists s0. split; [done|]. by apply reaches_refl.
      - match type of H0 with
        | match ?x with _ => _ end = _ => destruct x as [m'|] eqn:Hbody
        end.
        + injection H0 as ->. apply IH1 in Hbody as (s1 & Hs1 & H1).
          destruct (Nat.ltb _ _); [|done].
          apply IHf in Hs1 as (s' & Hk & H2). exists s'. split; [done|].
          destruct H1 as (Hp1 & Hl1 & Hc1 & _), H2 as (Hp2 & Hl2 & Hc2 & _).
          unfold reaches. cbn [has_group consuming] in *. repeat split.
          * lia.
          * lia.
          * intros Hg. rewrite Hc2, Hc1; done.
          * done.
        + exists s0. split; [done|]. by apply reaches_refl. }
    by apply Hiter in Hm.
  - match type of Hm with
    | match ?x with _ => _ end = _ => destruct x as [m'|] eqn:Hbody
    end.
    + injection Hm as ->. apply IH1 in Hbody as (s1 & Hs1 & H1).
      destruct (Nat.ltb _ _); [|done].
      exists s1. split; [done|]. destruct H1 as (Hp1 & Hl1 & Hc1 & _).
      unfold reaches. cbn [has_group consuming]. by repeat split.
    + exists s. split; [done|]. by apply reaches_refl.
  - apply IH1 in Hm as (s1 & Hm & H1). eexists. split; [exact Hm|].
    destruct H1 as (Hp1 & Hl1 & _ & Hm1).
    unfold reaches. cbn [has_group consuming pos rest caps]. by repeat split.
Qed.

Lemma exec_from_rmatch (r : regex) (input : list N) :
  ∀ i m, exec_from r i input = Some m →
         ∃ i' input', rmatch r Some (MState i' input' []) = Some m.
Proof.
  induction input as [|c tl IH]; intros i m Hm; cbn [exec_from] in Hm.
  - destruct (rmatch r Some (MState i [] [])) eqn:E; [|done].
    injection Hm as ->. eauto.
  - destruct (rmatch r Some (MState i (c :: tl) [])) eqn:E.
    + injection Hm as ->. eauto.
    + by apply IH in Hm.
Qed.

Lemma rmatch_Seq (r1 r2 : regex) (k : mstate → option mstate) (s : mstate) :
  rmatch (Seq r1 r2) k s = rmatch r1 (rmatch r2 k) s.
Proof. reflexivity. Qed.

Lemma rmatch_Group (n : nat) (r : regex) (k : mstate → option mstate)
    (s : mstate) :
  rmatch (Group n r) k s
  = rmatch r
      (fun s1 =>
         k (MState (pos s1) (rest s1)
              ((n, take (pos s1 - pos s)%nat (rest s)) :: caps s1))) s.
Proof. reflexivity. Qed.

(** A statement that [insertRegexp] matches names a table, and the name
    is not empty. *)
Lemma insertRegexp_table (sql : list N) (matches : mstate) :
  exec insertRegexp sql = Some matches →
  ∃ c tl, capture matches 1 = Some (c :: tl).
Proof.
  intros Hm. apply exec_from_rmatch in Hm as (i & input & Hm).
  unfold insertRegexp in Hm. cbn [seqs] in Hm.
  do 6 (rewrite rmatch_Seq in Hm; apply rmatch_reaches in Hm as (? & Hm & _)).
  rewrite rmatch_Seq, rmatch_Group in Hm.
  apply rmatch_reaches in Hm as (s1 & Hm & H1).
  apply rmatch_reaches in Hm as (s2 & Hm & H2).
  injection Hm as <-.
  destruct H1 as (_ & Hlen & _ & Hpos). specialize (Hpos eq_refl).
  destruct H2 as (_ & _ & Hcaps & _). specialize (Hcaps eq_refl).
  unfold capture. rewrite Hcaps. cbn [caps List.find fst snd Nat.eqb fmap option_fmap option_map].
  match goal with
  | |- context [take ?n ?l] =>
      destruct n as [|n'] eqn:En; [lia|];
      destruct l as [|c tl] eqn:El; [simpl in Hlen; lia|]
  end.
  by exists c, (take n' tl).
Qed.

Lemma insertTable_of_match (sql : list N) (matches : mstate) :
  exec insertRegexp sql = Some matches →
  ∃ c tl, insertTable_of sql = Some (c :: tl)
          ∧ capture matches 1 = Some (c :: tl).
Proof.
  intros Hm. destruct (insertRegexp_table sql matches Hm) as (c & tl & Ht).
  exists c, tl. unfold insertTable_of. by rewrite Hm.
Qed.

(** ** The insert rewriter *)

Lemma given_nonempty (s : list N) : s ≠ [] → given (Some s) = Some s.
Proof. by destruct s. Qed.

Lemma given_Some (s : option (list N)) (col : list N) :
  given s = Some col → s = Some col ∧ col ≠ [].
Proof. destruct s as [[|c tl]|]; simpl; intros H; by inversion H. Qed.

Lemma given_None (s : option (list N)) : given s = None ↔ absent s.
Proof.
  unfold absent. destruct s as [[|c tl]|]; simpl; split; intros H; auto; try done.
  by destruct H.
Qed.

(** C6. A statement that [insertRegexp] does not match goes through
    unchanged, with no table and no column; the text [exec] hands to the
    engine, on the connection and on a prepared statement, is the text of
    the caller. *)
Theorem addReturningToInsert_no_match `{CaseMapping} `{ObjectPrototype}
    (sql : list N) (options : LadcPgOptions) :
  exec insertRegexp sql = None →
  addReturningToInsert sql options
  = {| rw_sql := sql; rw_insertTable := None; rw_idColumnName := None |}
  ∧ (∀ params values,
       toPositionalParameters params = Ok values →
       request (MainConnection.exec options sql params)
       = Some {| name := None; text := sql; values := values |})
  ∧ (∀ s params merged values,
       PreparedStatement.sql s = sql →
       mergeParams (PreparedStatement.boundParams s) params = Ok merged →
       toPositionalParameters merged = Ok values →
       request (PreparedStatement.exec options s params)
       = Some {| name := Some (PreparedStatement.psName s); text := sql;
                 values := values |}).
Proof.
  intros Hno.
  assert (addReturningToInsert sql options
          = {| rw_sql := sql; rw_insertTable := None; rw_idColumnName := None |})
    as Hrw by (unfold addReturningToInsert; by rewrite Hno).
  split; [exact Hrw|]. split.
  - intros params values Hvalues. unfold MainConnection.exec.
    rewrite Hrw, Hvalues. reflexivity.
  - intros s params merged values Hsql Hmerged Hvalues.
    unfold PreparedStatement.exec. rewrite Hsql, Hrw, Hmerged. simpl.
    rewrite Hvalues. reflexivity.
Qed.

Lemma addReturningToInsert_no_match_witness :
  addReturningToInsert (js "select * from users")
    {| autoincMapping := Some {[ js "users" := js "id" ]};
       useReturningAll := true; inMemoryCursor := false |}
  = {| rw_sql := js "select * from users"; rw_insertTable := None;
       rw_idColumnName := None |}.
Proof.
  apply (addReturningToInsert_no_match (H := ascii_case)).
  vm_compute. reflexivity.
Defined.

(** The rewriter on a statement that [insertRegexp] matches, in terms of
    what [autoincMapping[insertTable]] reads. *)
Lemma addReturningToInsert_reads `{ObjectPrototype} (sql : list N)
    (options : LadcPgOptions) (matches : mstate) (insertTable : list N) :
  exec insertRegexp sql = Some matches →
  capture matches 1 = Some insertTable →
  let idColumnName :=
    mapping ← autoincMapping options; property mapping insertTable in
  addReturningToInsert sql options
  = {| rw_sql :=
         match given idColumnName with
         | Some col => sql ++ js " returning " ++ col
         | None =>
             if useReturningAll options then sql ++ js " returning *" else sql
         end;
       rw_insertTable := Some insertTable;
       rw_idColumnName := idColumnName |}.
Proof.
  intros Hm Hcap. unfold addReturningToInsert. rewrite Hm, Hcap. cbv zeta.
  change (default (js "undefined") (Some insertTable)) with insertTable.
  by destruct (autoincMapping options).
Qed.

Lemma property_own `{ObjectPrototype} (options : LadcPgOptions)
    (table : list N) :
  reads_inherited options table = false →
  (mapping ← autoincMapping options; property mapping table)
  = (mapping ← autoincMapping options; mapping !! table).
Proof.
  unfold reads_inherited, property.
  destruct (autoincMapping options) as [mapping|]; [|done]. simpl.
  by destruct (mapping !! table), (inherited table).
Qed.

(** C2, as the code has it. For a statement that [insertRegexp] matches,
    the table is read and is recorded in every case. Where the table does
    not read a member of [Object.prototype] in the mapping: with a
    non-empty identifier column configured for the table,
    [ returning <column>] is appended and the column is recorded;
    otherwise, with the return-all flag, [ returning *] is appended;
    otherwise the text is unchanged. In the last two cases no usable
    column is recorded. *)
Theorem addReturningToInsert_match `{ObjectPrototype} (sql : list N)
    (options : LadcPgOptions) (matches : mstate) :
  exec insertRegexp sql = Some matches →
  ∃ insertTable,
    insertTable_of sql = Some insertTable
    ∧ insertTable ≠ []
    ∧ rw_insertTable (addReturningToInsert sql options) = Some insertTable
    ∧ (reads_inherited options insertTable = false →
       ∀ configured,
        configured = (mapping ← autoincMapping options; mapping !! insertTable) →
        (∀ col, configured = Some col → col ≠ [] →
           addReturningToInsert sql options
           = {| rw_sql := sql ++ js " returning " ++ col;
                rw_insertTable := Some insertTable;
                rw_idColumnName := Some col |})
        ∧ (absent configured →
           useReturningAll options = true →
           addReturningToInsert sql options
           = {| rw_sql := sql ++ js " returning *";
                rw_insertTable := Some insertTable;
                rw_idColumnName := configured |})
        ∧ (absent configured →
           useReturningAll options = false →
           addReturningToInsert sql options
           = {| rw_sql := sql;
                rw_insertTable := Some insertTable;
                rw_idColumnName := configured |})).
Proof.
  intros Hm. destruct (insertTable_of_match sql matches Hm) as (c & tl & Hof & Hcap).
  exists (c :: tl). split; [exact Hof|]. split; [done|].
  rewrite (addReturningToInsert_reads sql options matches (c :: tl) Hm Hcap).
  split; [done|]. intros Hown configured Hconf.
  rewrite (property_own options (c :: tl) Hown), <- Hconf.
  repeat split.
  - intros col -> Hcol. by rewrite given_nonempty.
  - intros Hnone%given_None ->. by rewrite Hnone.
  - intros Hnone%given_None ->. by rewrite Hnone.
Qed.

Lemma addReturningToInsert_match_witness :
  addReturningToInsert (js "insert into users values ($1)")
    {| autoincMapping := Some {[ js "users" := js "id" ]};
       useReturningAll := false; inMemoryCursor := false |}
  = {| rw_sql := js "insert into users values ($1) returning id";
       rw_insertTable := Some (js "users");
       rw_idColumnName := Some (js "id") |}.
Proof.
  destruct (addReturningToInsert_match (js "insert into users values ($1)")
              {| autoincMapping := Some {[ js "users" := js "id" ]};
                 useReturningAll := false; inMemoryCursor := false |}
              (MState 29 [] [(1%nat, js "users")]))
    as (insertTable & Hof & _ & _ & Hcases).
  - vm_compute. reflexivity.
  - assert (insertTable = js "users") as ->.
    { vm_compute in Hof. by injection Hof. }
    destruct (Hcases ltac:(vm_compute; reflexivity) (Some (js "id")))
      as (Hcol & _).
    + vm_compute. reflexivity.
    + rewrite (Hcol (js "id")); [reflexivity | reflexivity | discriminate].
Defined.

(** The claim C2 as written fails in three places. Where nothing is
    configured, the text is unchanged, yet the table is recorded. Where
    the table is mapped to the empty string, no clause is appended. Where
    the mapping has no entry for a table named [constructor], the lookup
    reads the member of [Object.prototype] of that name, and a clause
    made of its text is appended. *)
Lemma addReturningToInsert_records_table :
  (exec insertRegexp (js "insert into users values ($1)") ≠ None
   ∧ rw_sql (addReturningToInsert (js "insert into users values ($1)")
               {| autoincMapping := None; useReturningAll := false;
                  inMemoryCursor := false |})
     = js "insert into users values ($1)"
   ∧ rw_insertTable (addReturningToInsert (js "insert into users values ($1)")
                       {| autoincMapping := None; useReturningAll := false;
                          inMemoryCursor := false |})
     = Some (js "users")
   ∧ rw_insertTable (addReturningToInsert (js "insert into users values ($1)")
                       {| autoincMapping := None; useReturningAll := false;
                          inMemoryCursor := false |})
     ≠ None)
  ∧ (addReturningToInsert (js "insert into users values ($1)")
       {| autoincMapping := Some {[ js "users" := [] ]};
          useReturningAll := false; inMemoryCursor := false |}
     = {| rw_sql := js "insert into users values ($1)";
          rw_insertTable := Some (js "users");
          rw_idColumnName := Some [] |}
     ∧ js "insert into users values ($1)"
       ≠ js "insert into users values ($1)" ++ js " returning " ++ [])
  ∧ (addReturningToInsert (H := node_prototype)
       (js "insert into constructor values (1)")
       {| autoincMapping := Some ∅;
          useReturningAll := false; inMemoryCursor := false |}
     = {| rw_sql :=
            js "insert into constructor values (1) returning function Object() { [native code] }";
          rw_insertTable := Some (js "constructor");
          rw_idColumnName := Some (js "function Object() { [native code] }") |}
     ∧ (∅ : gmap (list N) (list N)) !! js "constructor" = None).
Proof.
  split; [vm_compute; repeat split; discriminate|].
  split; [split; [vm_compute; reflexivity | discriminate]|].
  split; [vm_compute; reflexivity | reflexivity].
Qed.

(** What the slip of the lookup does: a table that bears the name of a
    member of [Object.prototype] and has no entry in the mapping gets a
    returning clause made of the text of the member. *)
Lemma addReturningToInsert_inherited `{ObjectPrototype} (sql : list N)
    (options : LadcPgOptions) (matches : mstate) (insertTable : list N) :
  exec insertRegexp sql = Some matches →
  capture matches 1 = Some insertTable →
  reads_inherited options insertTable = true →
  ∃ member,
    inherited insertTable = Some member
    ∧ addReturningToInsert sql options
      = {| rw_sql := sql ++ js " returning " ++ member;
           rw_insertTable := Some insertTable;
           rw_idColumnName := Some member |}.
Proof.
  intros Hm Hcap Hreads.
  rewrite (addReturningToInsert_reads sql options matches insertTable Hm Hcap).
  unfold reads_inherited in Hreads. unfold property.
  destruct (autoincMapping options) as [mapping|]; [|done]. simpl.
  destruct (mapping !! insertTable); [done|].
  destruct (inherited insertTable) as [member|] eqn:Hmember; [|done].
  exists member. split; [done|].
  by rewrite (given_nonempty member (inherited_nonempty _ _ Hmember)).
Qed.

(** ** The inserted-id resolver *)

(** C4. On a result that does not hold exactly one row the resolver
    fails: with no row, by the message that asks for a returning clause;
    with several rows, by the message that gives their number. *)
Theorem getInsertedId_row_count `{CaseMapping} (result : QueryResult)
    (insertTable optIdCol idColumnName : option (list N)) :
  length (rows result) ≠ 1%nat →
  getInsertedId (toBasicExecResult result insertTable optIdCol) idColumnName
  = Throw (if Nat.eqb (length (rows result)) 0
           then MissingRow
           else AmbiguousRow (length (rows result))).
Proof.
  intros Hlen. cbn [getInsertedId toBasicExecResult].
  destruct (rows result) as [|row1 [|row2 others]]; [done | done | done].
Qed.

Lemma getInsertedId_row_count_witness :
  getInsertedId
    (toBasicExecResult (H := ascii_case)
       {| rows := [[(js "id", VNumber 1)]; [(js "id", VNumber 2)]];
          rowCount := Some 2%N |}
       (Some (js "users")) (Some (js "id")))
    None
  = Throw (js "Cannot get the inserted ID, there must be one result row (2)").
Proof.
  apply (getInsertedId_row_count (H := ascii_case)
           {| rows := [[(js "id", VNumber 1)]; [(js "id", VNumber 2)]];
              rowCount := Some 2%N |}).
  simpl. lia.
Defined.

(** On a row without a column named [hasOwnProperty] the method is the
    one of [Object.prototype] and answers whether the row has the column;
    on a row with such a column every call of it is a [TypeError]. *)
Lemma hasOwnProperty_plain (row : Row) (key : list N) :
  has_column row (js "hasOwnProperty") = false →
  hasOwnProperty row key = Ok (has_column row key).
Proof. intros Hplain. unfold hasOwnProperty. by rewrite Hplain. Qed.

Lemma hasOwnProperty_hidden (row : Row) (key : list N) :
  has_column row (js "hasOwnProperty") = true →
  hasOwnProperty row key = Fault TypeError.
Proof. intros Hhidden. unfold hasOwnProperty. by rewrite Hhidden. Qed.

(** C1, as the code has it. On a result of one row that has no column
    named [hasOwnProperty]: a non-empty column name of the caller
    decides; else a non-empty recorded column; else, with a non-empty
    recorded table, the first of [id], the lower-cased table followed by
    [_id], and that name upper-cased, that the row has. A name of the
    first two kinds that the row lacks fails by naming it and listing the
    columns; when nothing is found the failure lists the columns. An
    empty string counts as no name. *)
Theorem getInsertedId_precedence `{CaseMapping} (result : QueryResult)
    (row : Row) (insertTable optIdCol idColumnName : option (list N)) :
  rows result = [row] →
  has_column row (js "hasOwnProperty") = false →
  let resolved :=
    getInsertedId (toBasicExecResult result insertTable optIdCol) idColumnName in
  let named col :=
    if has_column row col then Ok (get row col)
    else Throw (UnknownColumn col row) in
  (∀ col, idColumnName = Some col → col ≠ [] → resolved = named col)
  ∧ (absent idColumnName →
     ∀ col, optIdCol = Some col → col ≠ [] → resolved = named col)
  ∧ (absent idColumnName → absent optIdCol →
     ∀ table, insertTable = Some table → table ≠ [] →
       resolved
       = match
           List.find (has_column row)
             [js "id"; toLowerCase table ++ js "_id";
              toUpperCase (toLowerCase table ++ js "_id")]
         with
         | Some col => Ok (get row col)
         | None => Throw (UnresolvedInsertedId row)
         end)
  ∧ (absent idColumnName → absent optIdCol → absent insertTable →
     resolved = Throw (UnresolvedInsertedId row)).
Proof.
  intros Hrows Hplain resolved named. subst resolved named.
  cbn [getInsertedId toBasicExecResult]. rewrite Hrows.
  assert (∀ col, col ≠ [] →
    (col' ← (has ← hasOwnProperty row col;
             if negb has then Throw (UnknownColumn col row)
             else Ok (Some col));
     match given col' with
     | None => Throw (UnresolvedInsertedId row)
     | Some col' => Ok (get row col')
     end)
    = if has_column row col then Ok (get row col)
      else Throw (UnknownColumn col row)) as Hnamed.
  { intros col Hcol. rewrite (hasOwnProperty_plain row col Hplain).
    cbn [mbind outcome_mbind outcome_bind].
    destruct (has_column row col); [|done].
    cbn [negb mbind outcome_mbind outcome_bind]. by rewrite given_nonempty. }
  repeat split.
  - intros col -> Hcol. rewrite (given_nonempty col Hcol). by apply Hnamed.
  - intros Hid%given_None col -> Hcol.
    rewrite Hid, (given_nonempty col Hcol). by apply Hnamed.
  - intros Hid%given_None Hopt%given_None table -> Htable.
    rewrite Hid, Hopt, (given_nonempty table Htable). cbn [List.find].
    rewrite !(hasOwnProperty_plain row _ Hplain).
    cbn [mbind outcome_mbind outcome_bind].
    destruct (has_column row (js "id")); [done|].
    assert (toLowerCase table ++ js "_id" ≠ []) as Hcomposed
      by (destruct (toLowerCase table); discriminate).
    cbn [mbind outcome_mbind outcome_bind].
    destruct (has_column row (toLowerCase table ++ js "_id")).
    { cbn [mbind outcome_mbind outcome_bind]. by rewrite given_nonempty. }
    cbn [mbind outcome_mbind outcome_bind].
    destruct (has_column row (toUpperCase (toLowerCase table ++ js "_id"))).
    { cbn [mbind outcome_mbind outcome_bind]. rewrite given_nonempty; [done|].
      by apply toUpperCase_nonempty. }
    done.
  - intros Hid%given_None Hopt%given_None Htable%given_None.
    by rewrite Hid, Hopt, Htable.
Qed.

Lemma getInsertedId_precedence_witness :
  getInsertedId
    (toBasicExecResult (H := ascii_case)
       {| rows := [[(js "name", VString (js "x")); (js "USERS_ID", VNumber 42)]];
          rowCount := Some 1%N |}
       (Some (js "Users")) None)
    None
  = Ok (VNumber 42).
Proof.
  destruct (getInsertedId_precedence (H := ascii_case)
    {| rows := [[(js "name", VString (js "x")); (js "USERS_ID", VNumber 42)]];
       rowCount := Some 1%N |}
    [(js "name", VString (js "x")); (js "USERS_ID", VNumber 42)]
    (Some (js "Users")) None None eq_refl eq_refl) as (_ & _ & Htable & _).
  rewrite (Htable (or_introl eq_refl) (or_introl eq_refl) (js "Users") eq_refl);
    [reflexivity | discriminate].
Defined.

(** The claim C1 as written fails in three places. Where the caller
    names the empty string, the row has no such column, and the resolver
    does not fail, it goes on to the recorded table and answers with the
    column [id]. Where the table is named by the Kelvin sign, whose lower
    case is the letter k, the third candidate is [K_ID] with the letter
    K, and a row whose column is the Kelvin sign followed by [_ID], the
    upper-cased table followed by [_ID], is not resolved. Where the row
    has a column named [hasOwnProperty], the resolver finds no column at
    all, not even one the caller names and the row has. *)
Lemma getInsertedId_counterexamples :
  (has_column [(js "id", VNumber 42)] [] = false
   ∧ getInsertedId
       (toBasicExecResult (H := ascii_case)
          {| rows := [[(js "id", VNumber 42)]]; rowCount := Some 1%N |}
          (Some (js "users")) None)
       (Some [])
     = Ok (VNumber 42)
   ∧ getInsertedId
       (toBasicExecResult (H := ascii_case)
          {| rows := [[(js "id", VNumber 42)]]; rowCount := Some 1%N |}
          (Some (js "users")) None)
       (Some [])
     ≠ Throw (UnknownColumn [] [(js "id", VNumber 42)]))
  ∧ (toLowerCase (CaseMapping := kelvin_case) [8490%N] = js "k"
     ∧ toUpperCase (CaseMapping := kelvin_case) [8490%N] = [8490%N]
     ∧ has_column [(8490%N :: js "_ID", VNumber 7)]
         (toUpperCase (CaseMapping := kelvin_case) [8490%N] ++ js "_ID")
       = true
     ∧ getInsertedId
         (toBasicExecResult (H := kelvin_case)
            {| rows := [[(8490%N :: js "_ID", VNumber 7)]];
               rowCount := Some 1%N |}
            (Some [8490%N]) None)
         None
       = Throw (UnresolvedInsertedId [(8490%N :: js "_ID", VNumber 7)]))
  ∧ (has_column [(js "hasOwnProperty", VNumber 1); (js "id", VNumber 42)]
       (js "id")
     = true
     ∧ getInsertedId
         (toBasicExecResult (H := ascii_case)
            {| rows := [[(js "hasOwnProperty", VNumber 1);
                         (js "id", VNumber 42)]];
               rowCount := Some 1%N |}
            (Some (js "users")) None)
         (Some (js "id"))
       = Fault TypeError).
Proof.
  split; [repeat split; discriminate|].
  split; [by repeat split|]. by split.
Qed.

(** What the slip of the method call does: on a row with a column named
    [hasOwnProperty] the resolver fails with a [TypeError] as soon as a
    name or a table makes it look for a column. *)
Lemma getInsertedId_hidden_method `{CaseMapping} (result : QueryResult)
    (row : Row) (insertTable optIdCol idColumnName : option (list N)) :
  rows result = [row] →
  has_column row (js "hasOwnProperty") = true →
  ¬ (absent idColumnName ∧ absent optIdCol ∧ absent insertTable) →
  getInsertedId (toBasicExecResult result insertTable optIdCol) idColumnName
  = Fault TypeError.
Proof.
  intros Hrows Hhidden Hnamed.
  cbn [getInsertedId toBasicExecResult]. rewrite Hrows.
  destruct (given idColumnName) as [col|] eqn:Hid.
  { by rewrite (hasOwnProperty_hidden row col Hhidden). }
  destruct (given optIdCol) as [col|] eqn:Hopt.
  { by rewrite (hasOwnProperty_hidden row col Hhidden). }
  destruct (given insertTable) as [table|] eqn:Htable.
  { by rewrite (hasOwnProperty_hidden row (js "id") Hhidden). }
  destruct Hnamed. by rewrite <- !given_None.
Qed.

(** ** Prepared statements *)

(** C3, as the code has it. With the bound and the call-site parameters
    merged into an ordered set, each of [exec], [all] and [cursor] asks
    the engine under the name of the statement, with the merged values,
    a call-site value standing wherever the call site has one. [exec]
    sends the rewritten text; [all] and [cursor] send the original text;
    [cursor] asks only when the in-memory cursor is enabled and fails
    otherwise. *)
Theorem prepared_statement_requests `{CaseMapping} `{ObjectPrototype}
    (options : LadcPgOptions)
    (s : PreparedStatement.statement)
    (params merged : option SqlParameters) (values : option jsarray) :
  mergeParams (PreparedStatement.boundParams s) params = Ok merged →
  toPositionalParameters merged = Ok values →
  request (PreparedStatement.exec options s params)
  = Some {| name := Some (PreparedStatement.psName s);
            text := rw_sql (addReturningToInsert (PreparedStatement.sql s) options);
            values := values |}
  ∧ request (PreparedStatement.all s params)
    = Some {| name := Some (PreparedStatement.psName s);
              text := PreparedStatement.sql s; values := values |}
  ∧ (inMemoryCursor options = true →
     request (PreparedStatement.cursor options s params)
     = Some {| name := Some (PreparedStatement.psName s);
               text := PreparedStatement.sql s; values := values |})
  ∧ (inMemoryCursor options = false →
     PreparedStatement.cursor options s params = Raise FeatureDisabled)
  ∧ (∀ bound call,
       PreparedStatement.boundParams s = Some (Positional bound) →
       params = Some (Positional call) →
       ∃ sent,
         values = Some sent
         ∧ (∀ i v, elems call !! i = Some (Some v) → arr_read (elems sent) i = v)
         ∧ (∀ i, (∀ v, elems call !! i ≠ Some (Some v)) →
                 arr_read (elems sent) i = arr_read (elems bound) i)).
Proof.
  intros Hmerged Hvalues. repeat split.
  - unfold PreparedStatement.exec. rewrite Hmerged. simpl. by rewrite Hvalues.
  - unfold PreparedStatement.all. rewrite Hmerged. simpl. by rewrite Hvalues.
  - intros Hon. unfold PreparedStatement.cursor. rewrite Hon, Hmerged. simpl.
    by rewrite Hvalues.
  - intros Hoff. unfold PreparedStatement.cursor. by rewrite Hoff.
  - intros bound call Hbound ->. rewrite Hbound in Hmerged.
    destruct (mergeParams_positional bound call) as (sent & Heq & Hover & Hbase).
    rewrite Heq in Hmerged. injection Hmerged as <-.
    simpl in Hvalues. injection Hvalues as <-. by exists sent.
Qed.

Lemma prepared_statement_requests_witness :
  request
    (PreparedStatement.exec (H := ascii_case)
       {| autoincMapping := Some {[ js "users" := js "id" ]};
          useReturningAll := false; inMemoryCursor := false |}
       {| PreparedStatement.psName := js "ladc-ps-1";
          PreparedStatement.sql := js "insert into users values ($1, $2)";
          PreparedStatement.boundParams :=
            Some (Positional (JsArray [Some (VNumber 1); Some (VNumber 2)] ∅)) |}
       (Some (Positional (JsArray [Some (VNumber 7)] ∅))))
  = Some {| name := Some (js "ladc-ps-1");
            text := js "insert into users values ($1, $2) returning id";
            values := Some (JsArray [Some (VNumber 7); Some (VNumber 2)] ∅) |}.
Proof.
  pose proof (prepared_statement_requests (H := ascii_case)
    {| autoincMapping := Some {[ js "users" := js "id" ]};
       useReturningAll := false; inMemoryCursor := false |}
    {| PreparedStatement.psName := js "ladc-ps-1";
       PreparedStatement.sql := js "insert into users values ($1, $2)";
       PreparedStatement.boundParams :=
         Some (Positional (JsArray [Some (VNumber 1); Some (VNumber 2)] ∅)) |}
    (Some (Positional (JsArray [Some (VNumber 7)] ∅)))
    (Some (Positional (JsArray [Some (VNumber 7); Some (VNumber 2)] ∅)))
    (Some (JsArray [Some (VNumber 7); Some (VNumber 2)] ∅))
    eq_refl eq_refl) as [Hexec _].
  vm_compute in Hexec. vm_compute. exact Hexec.
Defined.

(** The claim C3 as written fails for [all] and [cursor]: on an insert
    that the rewriter extends, both send the text without the returning
    clause. *)
Lemma all_and_cursor_send_original_text :
  rw_sql (addReturningToInsert (js "insert into users values ($1)")
            {| autoincMapping := Some {[ js "users" := js "id" ]};
               useReturningAll := false; inMemoryCursor := true |})
  = js "insert into users values ($1) returning id"
  ∧ request
      (PreparedStatement.all
         {| PreparedStatement.psName := js "ladc-ps-1";
            PreparedStatement.sql := js "insert into users values ($1)";
            PreparedStatement.boundParams := None |}
         (Some (Positional (JsArray [Some (VNumber 5)] ∅))))
    = Some {| name := Some (js "ladc-ps-1");
              text := js "insert into users values ($1)";
              values := Some (JsArray [Some (VNumber 5)] ∅) |}
  ∧ request
      (PreparedStatement.cursor
         {| autoincMapping := Some {[ js "users" := js "id" ]};
            useReturningAll := false; inMemoryCursor := true |}
         {| PreparedStatement.psName := js "ladc-ps-1";
            PreparedStatement.sql := js "insert into users values ($1)";
            PreparedStatement.boundParams := None |}
         (Some (Positional (JsArray [Some (VNumber 5)] ∅))))
    = Some {| name := Some (js "ladc-ps-1");
              text := js "insert into users values ($1)";
              values := Some (JsArray [Some (VNumber 5)] ∅) |}
  ∧ js "insert into users values ($1)"
    ≠ js "insert into users values ($1) returning id".
Proof. split; [vm_compute; reflexivity|]. repeat split. discriminate. Qed.

(** ** From the rewriter to the resolver *)

(** With a non-empty identifier column configured for the table of an
    insert, the statement asks for that column and the resolver, called
    without a name on the one row that comes back, answers with it. *)
Lemma configured_column_is_returned `{CaseMapping} `{ObjectPrototype}
    (sql : list N) (options : LadcPgOptions) (matches : mstate)
    (mapping : gmap (list N) (list N)) (table col : list N)
    (result : QueryResult) (row : Row) :
  exec insertRegexp sql = Some matches →
  capture matches 1 = Some table →
  autoincMapping options = Some mapping →
  mapping !! table = Some col →
  col ≠ [] →
  rows result = [row] →
  hasOwnProperty row col = Ok true →
  rw_sql (addReturningToInsert sql options) = sql ++ js " returning " ++ col
  ∧ getInsertedId
      (toBasicExecResult result
         (rw_insertTable (addReturningToInsert sql options))
         (rw_idColumnName (addReturningToInsert sql options)))
      None
    = Ok (get row col).
Proof.
  intros Hm Hcap Hmapping Hcol Hne Hrows Hhas.
  rewrite (addReturningToInsert_reads sql options matches table Hm Hcap).
  rewrite Hmapping. cbn [mbind option_bind]. unfold property. rewrite Hcol.
  rewrite (given_nonempty col Hne). cbn [rw_sql rw_insertTable rw_idColumnName].
  split; [done|].
  cbn [getInsertedId toBasicExecResult]. rewrite Hrows.
  change (given None) with (@None (list N)).
  rewrite (given_nonempty col Hne), Hhas.
  cbn [negb mbind outcome_mbind outcome_bind].
  by rewrite (given_nonempty col Hne).
Qed.

(** ** Examples *)

Example insertRegexp_users :
  (fun m => capture m 1) <$> exec insertRegexp (js "insert into users values ($1)")
  = Some (Some (js "users")).
Proof. vm_compute. reflexivity. Qed.

Example insertRegexp_columns :
  (fun m => capture m 1) <$>
    exec insertRegexp (js " INSERT  Into t(a, b)  VALUES (1, (2)) ")
  = Some (Some (js "t")).
Proof. vm_compute. reflexivity. Qed.

Example insertRegexp_backtracks :
  (fun m => capture m 1) <$> exec insertRegexp (js "insert into tvalues(1)")
  = Some (Some (js "t")).
Proof. vm_compute. reflexivity. Qed.

Example insertRegexp_select :
  exec insertRegexp (js "select * from users") = None.
Proof. vm_compute. reflexivity. Qed.

Example insertRegexp_returning :
  exec insertRegexp (js "insert into users values ($1) returning id") = None.
Proof. vm_compute. reflexivity. Qed.

Example ofN_examples :
  ofN 0 = js "0" ∧ ofN 7 = js "7" ∧ ofN 10 = js "10"
  ∧ ofN 1234567890 = js "1234567890" ∧ ofZ (-1) = js "-1".
Proof. vm_compute. repeat split. Qed.

Example array_index_examples :
  array_index (js "0") = Some 0%nat ∧ array_index (js "12") = Some 12%nat
  ∧ array_index (js "01") = None ∧ array_index (js "a") = None
  ∧ array_index (js "-1") = None ∧ array_index (js "4294967295") = None.
Proof. vm_compute. repeat split. Qed.

(** [prepare("insert into users values ($1)")] with the mapping
    [{users: "id"}], then [exec([5])] against an engine that answers the
    rewritten text with the row [{id: 42}]: the inserted id is 42. *)
Example prepare_exec_getInsertedId :
  ∃ psSequence s r,
    MainConnection.prepare 0 (js "insert into users values ($1)") None
    = (psSequence, s)
    ∧ PreparedStatement.psName s = js "ladc-ps-1"
    ∧ run
        (fun q =>
           if bool_decide (text q = js "insert into users values ($1) returning id")
           then Ok {| rows := [[(js "id", VNumber 42)]]; rowCount := Some 1%N |}
           else Throw (js "syntax error"))
        (PreparedStatement.exec (H := ascii_case)
           {| autoincMapping := Some {[ js "users" := js "id" ]};
              useReturningAll := false; inMemoryCursor := false |}
           s (Some (Positional (JsArray [Some (VNumber 5)] ∅))))
      = Ok r
    ∧ getInsertedId r None = Ok (VNumber 42).
Proof.
  do 3 eexists. split; [reflexivity|]. split; [vm_compute; reflexivity|].
  split; [vm_compute; reflexivity|]. vm_compute. reflexivity.
Qed.

(** [unbind("length")] on a bound array asks for a length that is no
    number and fails; on a bound named set, [length] is a property as any
    other. [unbind("__proto__")] leaves the parameters as they are. *)
Example unbind_special_keys :
  PreparedStatement.unbind (KString (js "length"))
    {| PreparedStatement.psName := js "ladc-ps-1";
       PreparedStatement.sql := js "select $1";
       PreparedStatement.boundParams :=
         Some (Positional (JsArray [Some (VNumber 5)] ∅)) |}
  = Fault RangeError
  ∧ PreparedStatement.boundParams
      (rebind (DoUnbind (KString (js "length")))
         {| PreparedStatement.psName := js "ladc-ps-1";
            PreparedStatement.sql := js "select $1";
            PreparedStatement.boundParams :=
              Some (Named {[ js "a" := VNumber 5 ]}) |})
    = Some (Named (<[js "length" := VUndefined]> {[ js "a" := VNumber 5 ]}))
  ∧ PreparedStatement.boundParams
      (rebind (DoUnbind (KString (js "__proto__")))
         {| PreparedStatement.psName := js "ladc-ps-1";
            PreparedStatement.sql := js "select $1";
            PreparedStatement.boundParams :=
              Some (Positional (JsArray [Some (VNumber 5)] ∅)) |})
    = Some (Positional (JsArray [Some (VNumber 5)] ∅)).
Proof. repeat split. Qed.

(** [String(x)] below and beyond [2^53]. *)
Example toString_examples :
  JsNumber.toString 42 = js "42"
  ∧ JsNumber.toString (-7) = js "-7"
  ∧ JsNumber.toString 9007199254740992 = js "9007199254740992"
  ∧ JsNumber.toString 18446744073709551616 = js "18446744073709552000"
  ∧ JsNumber.toString 1000000000000000000000 = js "1e+21"
  ∧ JsNumber.toString 1180591620717411303424 = js "1.1805916207174113e+21"
  ∧ JsNumber.toString (-99999999999999991611392) = js "-1e+23".
Proof. vm_compute. repeat split. Qed.

(** A cursor asked for without the option fails before any query. *)
Example cursor_disabled (sql : list N) (params : option SqlParameters) :
  MainConnection.cursor
    {| autoincMapping := None; useReturningAll := false;
       inMemoryCursor := false |} sql params
  = Raise FeatureDisabled.
Proof. reflexivity. Qed.

(** On ASCII names the third candidate of the resolver is the upper-cased
    table followed by [_ID]. *)
Lemma ascii_composed_upper (table : list N) :
  ascii_upper (ascii_lower table ++ js "_id") = ascii_upper table ++ js "_ID".
Proof.
  unfold ascii_upper, ascii_lower. rewrite List.map_app, List.map_map.
  f_equal. apply List.map_ext. intros c.
  destruct (N.leb_spec 65 c), (N.leb_spec c 90); cbn [andb];
    destruct (N.leb_spec 97 c), (N.leb_spec c 122); cbn [andb];
    repeat match goal with
           | |- context [(?a <=? ?b)%N] => destruct (N.leb_spec a b)
           end; cbn [andb]; lia.
Qed.

(** * Further properties *)

(** ** Statement names *)






(** At [2^53] the counter no longer moves, [2^53 + 1] being no number:
    from there on every statement bears the same name. *)
Example prepare_counter_stops :
  MainConnection.prepare 9007199254740991 (js "select 1") None
  = (9007199254740992,
     {| PreparedStatement.psName := js "ladc-ps-9007199254740992";
        PreparedStatement.sql := js "select 1";
        PreparedStatement.boundParams := None |})
  ∧ MainConnection.prepare 9007199254740992 (js "select 2") None
    = (9007199254740992,
       {| PreparedStatement.psName := js "ladc-ps-9007199254740992";
          PreparedStatement.sql := js "select 2";
          PreparedStatement.boundParams := None |}).
Proof. split; vm_compute; reflexivity. Qed.

(** The rounding of [key - 1] beyond [2^53]. *)
Example sub_rounds :
  JsNumber.sub 9007199254740994 1 = 9007199254740992
  ∧ JsNumber.sub 9007199254740996 1 = 9007199254740996
  ∧ JsNumber.sub 18014398509481988 1 = 18014398509481988
  ∧ JsNumber.sub (-9007199254740992) 1 = -9007199254740992
  ∧ JsNumber.sub 4294967296 1 = 4294967295.
Proof. vm_compute. repeat split. Qed.

(** ** The cursor over any list *)

Section CursorResults.

Import InMemoryCursor.

Lemma at_index_lookup (rs : list any) (j : nat) :
  at_index rs (Z.of_nat j - 1 + 1) = default VUndefined (rs !! j).
Proof.
  unfold at_index.
  replace (Z.of_nat j - 1 + 1) with (Z.of_nat j) by lia.
  rewrite (proj2 (Z.ltb_ge _ _)) by lia. by rewrite Nat2Z.id.
Qed.

Lemma calls_from (os : list call) :
  ∀ (rs : list any) (j : nat),
    ∃ k ends,
      (calls os {| rows := Some rs; currentIndex := Z.of_nat j - 1 |}).1
      = (yield <$> take k (drop j rs)) ++ ends
      ∧ Forall (fun r => truthy_value r = true) (take k (drop j rs))
      ∧ Forall (fun r => done r = true) ends
      ∧ Forall (eq terminated) (tail ends).
Proof.
  induction os as [|o os IH]; intros rs j.
  - exists 0%nat, []. by repeat split.
  - destruct o.
    + cbn [calls step]. unfold next. cbn [rows currentIndex].
      rewrite at_index_lookup.
      destruct (rs !! j) as [x|] eqn:Hj;
        cbv beta iota delta [default from_option id].
      * destruct (truthy_value x) eqn:Hx; cbn [negb].
        -- replace (Z.of_nat j - 1 + 1) with (Z.of_nat (S j) - 1) by lia.
           destruct (IH rs (S j)) as (k & ends & Hres & Htruthy & Hdone & Hend).
           destruct (calls os _) as [res c']. simpl in Hres.
           exists (S k), ends. rewrite (drop_S _ _ _ Hj). cbn [take fmap list_fmap].
           simpl. rewrite Hres. repeat split; try done.
           by constructor.
        -- destruct (calls_after_end os
                       {| rows := None; currentIndex := Z.of_nat j - 1 + 1 |}
                       eq_refl) as [Hall _].
           destruct (calls os _) as [res c']. simpl in *.
           exists 0%nat, ({| done := true; value := x |} :: res).
           repeat split; try done. constructor; [done|].
           eapply Forall_impl; [exact Hall|]. by intros r <-.
      * cbn [truthy_value negb].
        destruct (calls_after_end os
                    {| rows := None; currentIndex := Z.of_nat j - 1 + 1 |}
                    eq_refl) as [Hall _].
        destruct (calls os _) as [res c']. simpl in *.
        exists 0%nat, ({| done := true; value := VUndefined |} :: res).
        repeat split; try done. constructor; [done|].
        eapply Forall_impl; [exact Hall|]. by intros r <-.
    + cbn [calls step]. unfold return_. cbn [rows currentIndex].
      destruct (calls_after_end os
                  {| rows := None; currentIndex := Z.of_nat j - 1 |}
                  eq_refl) as [Hall _].
      destruct (calls os _) as [res c']. simpl in *.
      exists 0%nat, (terminated :: res).
      repeat split; try done. constructor; [done|].
      eapply Forall_impl; [exact Hall|]. by intros r <-.
Qed.

(** X2. Whatever the list holds and whatever calls of [next()] and
    [return()] the consumer makes, the results are the elements of a
    beginning of the list, all truthy, each handed out once and in order,
    followed only by results that report the end; after the first of
    these every result is the end without a value. A cursor made without
    a list reports the end from the first call. *)
Theorem cursor_results_shape (os : list call) :
  (∀ rs : list any,
     ∃ k ends,
       (calls os (makeInMemoryCursor (Some rs))).1
       = (yield <$> take k rs) ++ ends
       ∧ Forall (fun r => truthy_value r = true) (take k rs)
       ∧ Forall (fun r => done r = true) ends
       ∧ Forall (eq terminated) (tail ends))
  ∧ Forall (eq terminated) (calls os (makeInMemoryCursor None)).1.
Proof.
  split.
  - intros rs. apply (calls_from os rs 0).
  - by apply calls_after_end.
Qed.

End CursorResults.

(** X3. With the in-memory cursor enabled and ordered parameters, the
    cursor of the connection asks the engine once, with the text as it
    is, and then hands out the rows of the answer one by one, in order,
    before it reports the end. *)
Theorem connection_cursor_yields_rows (options : LadcPgOptions)
    (sql : list N) (params : option SqlParameters) (sent : option jsarray)
    (engine : QueryConfig → outcome QueryResult) (answer : QueryResult) :
  inMemoryCursor options = true →
  toPositionalParameters params = Ok sent →
  engine {| name := None; text := sql; values := sent |} = Ok answer →
  ∃ c c',
    run engine (MainConnection.cursor options sql params) = Ok c
    ∧ calls (replicate (length (rows answer)) CallNext ++ [CallNext]) c
      = ((yield <$> (VObject <$> rows answer)) ++ [terminated], c')
    ∧ InMemoryCursor.rows c' = None.
Proof.
  intros Hon Hsent Hanswer.
  destruct (cursor_yields_all (rows answer)) as (c' & Hcalls & Hend).
  exists (InMemoryCursor.makeInMemoryCursor (Some (VObject <$> rows answer))), c'.
  split; [|by split].
  unfold MainConnection.cursor. rewrite Hon, Hsent. simpl. by rewrite Hanswer.
Qed.

Lemma connection_cursor_yields_rows_witness :
  ∃ c c',
    run (fun _ => Ok {| rows := [[(js "n", VNumber 1)]; [(js "n", VNumber 2)]];
                        rowCount := Some 2%N |})
      (MainConnection.cursor
         {| autoincMapping := None; useReturningAll := false;
            inMemoryCursor := true |}
         (js "select n from t") None)
    = Ok c
    ∧ calls [CallNext; CallNext; CallNext] c
      = ([yield (VObject [(js "n", VNumber 1)]);
          yield (VObject [(js "n", VNumber 2)]); terminated], c')
    ∧ InMemoryCursor.rows c' = None.
Proof.
  apply (connection_cursor_yields_rows
           {| autoincMapping := None; useReturningAll := false;
              inMemoryCursor := true |}
           (js "select n from t") None None
           (fun _ => Ok {| rows := [[(js "n", VNumber 1)]; [(js "n", VNumber 2)]];
                           rowCount := Some 2%N |})
           {| rows := [[(js "n", VNumber 1)]; [(js "n", VNumber 2)]];
              rowCount := Some 2%N |});
    reflexivity.
Defined.

(** ** Parameters on their way to the engine *)

(** X4. A prepared statement asks the engine exactly when neither the
    bound nor the call-site parameters are a named set. With a named set
    on one side and an ordered set on the other, [exec], [all] and the
    enabled [cursor] fail by the style mismatch; with a named set
    otherwise, by the refusal of named parameters; in both cases before
    any query. *)
Theorem prepared_statement_parameter_styles `{CaseMapping} `{ObjectPrototype}
    (options : LadcPgOptions) (s : PreparedStatement.statement)
    (params : option SqlParameters) :
  (is_named (PreparedStatement.boundParams s) = false →
   is_named params = false →
   ∃ sent,
     request (PreparedStatement.exec options s params)
     = Some {| name := Some (PreparedStatement.psName s);
               text := rw_sql (addReturningToInsert (PreparedStatement.sql s)
                                 options);
               values := sent |}
     ∧ request (PreparedStatement.all s params)
       = Some {| name := Some (PreparedStatement.psName s);
                 text := PreparedStatement.sql s; values := sent |})
  ∧ (is_named (PreparedStatement.boundParams s) || is_named params = true →
     ∃ message,
       message
       = (if is_named (PreparedStatement.boundParams s) && is_positional params
             || is_positional (PreparedStatement.boundParams s) && is_named params
          then StyleMismatch else NotImplemented)
       ∧ PreparedStatement.exec options s params = Raise message
       ∧ PreparedStatement.all s params = Raise message
       ∧ (inMemoryCursor options = true →
          PreparedStatement.cursor options s params = Raise message)).
Proof.
  unfold PreparedStatement.exec, PreparedStatement.all, PreparedStatement.cursor.
  split.
  - intros Hbound Hparams.
    destruct (PreparedStatement.boundParams s) as [[b|b]|], params as [[p|p]|];
      try discriminate; eexists; split; reflexivity.
  - intros Hnamed. eexists. split; [reflexivity|].
    destruct (PreparedStatement.boundParams s) as [[b|b]|], params as [[p|p]|];
      try discriminate; repeat split; try (by intros ->).
Qed.

Lemma prepared_statement_parameter_styles_witness :
  PreparedStatement.all
    {| PreparedStatement.psName := js "ladc-ps-1";
       PreparedStatement.sql := js "select $1";
       PreparedStatement.boundParams :=
         Some (Positional (JsArray [Some (VNumber 1)] ∅)) |}
    (Some (Named {[ js "a" := VNumber 2 ]}))
  = Raise StyleMismatch.
Proof.
  destruct (proj2 (prepared_statement_parameter_styles (H := ascii_case)
    {| autoincMapping := None; useReturningAll := false;
       inMemoryCursor := false |}
    {| PreparedStatement.psName := js "ladc-ps-1";
       PreparedStatement.sql := js "select $1";
       PreparedStatement.boundParams :=
         Some (Positional (JsArray [Some (VNumber 1)] ∅)) |}
    (Some (Named {[ js "a" := VNumber 2 ]}))) eq_refl)
    as (message & -> & _ & Hall & _).
  exact Hall.
Defined.

(** X5. After [bind(p, v)] on a statement whose bound parameters are
    absent or ordered, [exec] without call-site parameters sends [v] at
    slot [p - 1]; a call-site value for that slot is sent in its place. *)
Theorem bind_then_exec `{CaseMapping} `{ObjectPrototype}
    (options : LadcPgOptions)
    (s : PreparedStatement.statement) (p : Z) (v : any) :
  1 ≤ p < 4294967296 →
  is_named (PreparedStatement.boundParams s) = false →
  ∃ s',
    PreparedStatement.bind (KNumber p) v s = Ok s'
    ∧ (∃ sent q,
         request (PreparedStatement.exec options s' None) = Some q
         ∧ name q = Some (PreparedStatement.psName s)
         ∧ values q = Some sent
         ∧ elems sent !! Z.to_nat (p - 1) = Some (Some v))
    ∧ (∀ call w,
         elems call !! Z.to_nat (p - 1) = Some (Some w) →
         ∃ sent q,
           request (PreparedStatement.exec options s' (Some (Positional call)))
           = Some q
           ∧ values q = Some sent
           ∧ arr_read (elems sent) (Z.to_nat (p - 1)) = w).
Proof.
  intros Hp Hbound. unfold PreparedStatement.bind. eexists. split; [reflexivity|].
  assert (∃ a, match PreparedStatement.boundParams s with
               | Some params => params
               | None => Positional (JsArray [] ∅)
               end = Positional a) as [a Ha].
  { destruct (PreparedStatement.boundParams s) as [[b|b]|]; try discriminate; eauto. }
  rewrite Ha, sub_exact by lia.
  destruct (put_number_stored a (p - 1) v ltac:(lia)) as (a' & Hput & Hstored).
  rewrite Hput. split.
  - exists a'. eexists. unfold PreparedStatement.exec. simpl.
    split; [reflexivity|]. by repeat split.
  - intros call w Hw.
    destruct (mergeParams_positional a' call) as (sent & Hmerged & Hover & _).
    exists sent. eexists. unfold PreparedStatement.exec.
    cbn [PreparedStatement.boundParams PreparedStatement.with_boundParams].
    rewrite Hmerged. simpl. split; [reflexivity|]. split; [done|].
    by apply Hover.
Qed.

Lemma bind_then_exec_witness :
  ∃ s',
    PreparedStatement.bind (KNumber 2) (VNumber 7)
      {| PreparedStatement.psName := js "ladc-ps-1";
         PreparedStatement.sql := js "select $1, $2";
         PreparedStatement.boundParams := None |}
    = Ok s'
    ∧ ∃ sent q,
        request (PreparedStatement.exec (H := ascii_case)
                   {| autoincMapping := None; useReturningAll := false;
                      inMemoryCursor := false |} s' None)
        = Some q
        ∧ name q = Some (js "ladc-ps-1")
        ∧ values q = Some sent
        ∧ elems sent !! 1%nat = Some (Some (VNumber 7)).
Proof.
  destruct (bind_then_exec (H := ascii_case)
    {| autoincMapping := None; useReturningAll := false;
       inMemoryCursor := false |}
    {| PreparedStatement.psName := js "ladc-ps-1";
       PreparedStatement.sql := js "select $1, $2";
       PreparedStatement.boundParams := None |} 2 (VNumber 7))
    as (s' & Hbind & Hexec & _).
  - lia.
  - reflexivity.
  - exists s'. split; [exact Hbind | exact Hexec].
Defined.

(** X6. [bind] counts positions from 1 and [unbind] from 0. After
    [bind(p, v)] on absent or ordered parameters, [unbind(p)] leaves [v]
    at slot [p - 1] and writes [undefined] at slot [p]; it is
    [unbind(p - 1)] that replaces [v] by [undefined]. *)
Theorem bind_unbind_off_by_one (s : PreparedStatement.statement) (p : Z)
    (v : any) :
  1 ≤ p < 4294967295 →
  is_named (PreparedStatement.boundParams s) = false →
  ∃ s1 s2 s3 a2 a3,
    PreparedStatement.bind (KNumber p) v s = Ok s1
    ∧ PreparedStatement.unbind (KNumber p) s1 = Ok s2
    ∧ PreparedStatement.boundParams s2 = Some (Positional a2)
    ∧ elems a2 !! Z.to_nat (p - 1) = Some (Some v)
    ∧ elems a2 !! Z.to_nat p = Some (Some VUndefined)
    ∧ PreparedStatement.unbind (KNumber (p - 1)) s1 = Ok s3
    ∧ PreparedStatement.boundParams s3 = Some (Positional a3)
    ∧ elems a3 !! Z.to_nat (p - 1) = Some (Some VUndefined).
Proof.
  intros Hp Hbound. unfold PreparedStatement.bind.
  assert (∃ a, match PreparedStatement.boundParams s with
               | Some params => params
               | None => Positional (JsArray [] ∅)
               end = Positional a) as [a Ha].
  { destruct (PreparedStatement.boundParams s) as [[b|b]|]; try discriminate; eauto. }
  rewrite Ha, sub_exact by lia.
  destruct (put_number_stored a (p - 1) v ltac:(lia)) as (a1 & Hput1 & Hst1).
  rewrite Hput1.
  destruct (put_number_stored a1 p VUndefined ltac:(lia)) as (a2 & Hput2 & Hst2).
  destruct (put_number_stored a1 (p - 1) VUndefined ltac:(lia))
    as (a3 & Hput3 & Hst3).
  exists (PreparedStatement.with_boundParams s (Some (Positional a1))).
  unfold PreparedStatement.unbind.
  cbn [PreparedStatement.boundParams PreparedStatement.with_boundParams
       put_undefined].
  rewrite Hput2, Hput3. cbn [mbind outcome_mbind outcome_bind].
  do 2 eexists. exists a2, a3.
  repeat split; try done.
  simpl in Hput2. replace ((0 <=? p) && (p <? 4294967295)) with true in Hput2 by lia.
  injection Hput2 as <-. cbn [elems].
  apply arr_write_kept; [lia | done].
Qed.

Lemma bind_unbind_off_by_one_witness :
  ∃ s1 s2 s3 a2 a3,
    PreparedStatement.bind (KNumber 1) (VNumber 5)
      {| PreparedStatement.psName := js "ladc-ps-1";
         PreparedStatement.sql := js "select $1";
         PreparedStatement.boundParams := None |}
    = Ok s1
    ∧ PreparedStatement.unbind (KNumber 1) s1 = Ok s2
    ∧ PreparedStatement.boundParams s2 = Some (Positional a2)
    ∧ elems a2 !! Z.to_nat (1 - 1) = Some (Some (VNumber 5))
    ∧ elems a2 !! Z.to_nat 1 = Some (Some VUndefined)
    ∧ PreparedStatement.unbind (KNumber (1 - 1)) s1 = Ok s3
    ∧ PreparedStatement.boundParams s3 = Some (Positional a3)
    ∧ elems a3 !! Z.to_nat (1 - 1) = Some (Some VUndefined).
Proof.
  apply (bind_unbind_off_by_one
           {| PreparedStatement.psName := js "ladc-ps-1";
              PreparedStatement.sql := js "select $1";
              PreparedStatement.boundParams := None |} 1 (VNumber 5)).
  - lia.
  - reflexivity.
Defined.

(** ** What the resolver answers *)

(** X7. Whenever the resolver answers, the result held exactly one row,
    and the answer is the value of a column that this row has; a
    non-empty name given by the caller is that column. The resolver never
    answers from a column the row lacks. *)
Theorem getInsertedId_from_row `{CaseMapping} (result : QueryResult)
    (insertTable optIdCol idColumnName : option (list N)) (v : any) :
  getInsertedId (toBasicExecResult result insertTable optIdCol) idColumnName
  = Ok v →
  ∃ row col,
    rows result = [row]
    ∧ col ≠ []
    ∧ hasOwnProperty row col = Ok true
    ∧ v = get row col
    ∧ (∀ c, idColumnName = Some c → c ≠ [] → col = c).
Proof.
  cbn [getInsertedId toBasicExecResult].
  destruct (rows result) as [|row [|row2 others]]; [done| |done].
  intros Hv. exists row.
  destruct (has_column row (js "hasOwnProperty")) eqn:Hplain.
  { exfalso.
    destruct (given idColumnName) as [c|];
      [by rewrite (hasOwnProperty_hidden row c Hplain) in Hv|].
    destruct (given optIdCol) as [c|];
      [by rewrite (hasOwnProperty_hidden row c Hplain) in Hv|].
    destruct (given insertTable) as [c|]; [|done].
    by rewrite (hasOwnProperty_hidden row (js "id") Hplain) in Hv. }
  destruct (given idColumnName) as [c1|] eqn:Hid.
  { apply given_Some in Hid as [-> Hc1].
    rewrite (hasOwnProperty_plain row c1 Hplain) in Hv.
    cbn [mbind outcome_mbind outcome_bind] in Hv.
    destruct (has_column row c1) eqn:Hhas; [|done].
    cbn [negb mbind outcome_mbind outcome_bind] in Hv.
    rewrite (given_nonempty c1 Hc1) in Hv. injection Hv as <-.
    exists c1. rewrite (hasOwnProperty_plain row c1 Hplain), Hhas.
    repeat split; try done. by intros c [= ->]. }
  assert (∀ c, idColumnName = Some c → c ≠ [] → False) as Hno.
  { intros c -> Hc. by rewrite (given_nonempty c Hc) in Hid. }
  destruct (given optIdCol) as [c2|] eqn:Hopt.
  { apply given_Some in Hopt as [-> Hc2].
    rewrite (hasOwnProperty_plain row c2 Hplain) in Hv.
    cbn [mbind outcome_mbind outcome_bind] in Hv.
    destruct (has_column row c2) eqn:Hhas; [|done].
    cbn [negb mbind outcome_mbind outcome_bind] in Hv.
    rewrite (given_nonempty c2 Hc2) in Hv. injection Hv as <-.
    exists c2. rewrite (hasOwnProperty_plain row c2 Hplain), Hhas.
    repeat split; try done. intros c Hc Hne. by destruct (Hno c). }
  destruct (given insertTable) as [table|] eqn:Htable; [|done].
  rewrite !(hasOwnProperty_plain row _ Hplain) in Hv.
  cbn [mbind outcome_mbind outcome_bind] in Hv.
  destruct (has_column row (js "id")) eqn:H1.
  { cbn [mbind outcome_mbind outcome_bind] in Hv.
    injection Hv as <-. exists (js "id").
    rewrite (hasOwnProperty_plain row _ Hplain), H1.
    repeat split; try done. intros c Hc Hne. by destruct (Hno c). }
  cbn [mbind outcome_mbind outcome_bind] in Hv.
  destruct (has_column row (toLowerCase table ++ js "_id")) eqn:H2.
  { cbn [mbind outcome_mbind outcome_bind] in Hv.
    destruct (given (Some (toLowerCase table ++ js "_id"))) as [c|] eqn:Hg; [|done].
    apply given_Some in Hg as [[= <-] Hc]. injection Hv as <-.
    eexists. rewrite (hasOwnProperty_plain row _ Hplain), H2.
    repeat split; try done. intros c Hc' Hne. by destruct (Hno c). }
  cbn [mbind outcome_mbind outcome_bind] in Hv.
  destruct (has_column row (toUpperCase (toLowerCase table ++ js "_id")))
    eqn:H3; [|done].
  cbn [mbind outcome_mbind outcome_bind] in Hv.
  destruct (given (Some (toUpperCase (toLowerCase table ++ js "_id"))))
    as [c|] eqn:Hg; [|done].
  apply given_Some in Hg as [[= <-] Hc]. injection Hv as <-.
  eexists. rewrite (hasOwnProperty_plain row _ Hplain), H3.
  repeat split; try done. intros c Hc' Hne. by destruct (Hno c).
Qed.

Lemma getInsertedId_from_row_witness :
  ∃ row col,
    [[(js "id", VNumber 42)]] = [row]
    ∧ col ≠ []
    ∧ hasOwnProperty row col = Ok true
    ∧ VNumber 42 = get row col
    ∧ (∀ c, Some (js "id") = Some c → c ≠ [] → col = c).
Proof.
  apply (getInsertedId_from_row (H := ascii_case)
           {| rows := [[(js "id", VNumber 42)]]; rowCount := Some 1%N |}
           None None (Some (js "id")) (VNumber 42)).
  reflexivity.
Defined.

(** X8. From the rewriter to the resolver, through the engine. When the
    configuration maps the table of a matched insert to a non-empty
    column, [exec] on the connection sends the text followed by
    [ returning <column>]; if the engine answers with one row on which
    [hasOwnProperty] finds the column, [exec] succeeds with the row count
    of the engine and [getInsertedId()] without a name answers with the
    value of that column. *)
Theorem exec_returns_configured_id `{CaseMapping} `{ObjectPrototype}
    (options : LadcPgOptions)
    (sql : list N) (params : option SqlParameters) (sent : option jsarray)
    (matches : mstate) (mapping : gmap (list N) (list N)) (table col : list N)
    (engine : QueryConfig → outcome QueryResult) (answer : QueryResult)
    (row : Row) :
  exec insertRegexp sql = Some matches →
  capture matches 1 = Some table →
  autoincMapping options = Some mapping →
  mapping !! table = Some col →
  col ≠ [] →
  toPositionalParameters params = Ok sent →
  engine {| name := None; text := sql ++ js " returning " ++ col;
            values := sent |} = Ok answer →
  rows answer = [row] →
  hasOwnProperty row col = Ok true →
  ∃ r,
    run engine (MainConnection.exec options sql params) = Ok r
    ∧ affectedRows r = rowCount answer
    ∧ getInsertedId r None = Ok (get row col).
Proof.
  intros Hm Hcap Hmapping Hcol Hne Hsent Hanswer Hrows Hhas.
  destruct (configured_column_is_returned sql options matches mapping table col
              answer row Hm Hcap Hmapping Hcol Hne Hrows Hhas) as [Hsql Hid].
  eexists. unfold MainConnection.exec. rewrite Hsent, Hsql. cbn -[js app].
  rewrite Hanswer. split; [reflexivity|]. split; [reflexivity|]. exact Hid.
Qed.

Lemma exec_returns_configured_id_witness :
  ∃ r,
    run (fun _ => Ok {| rows := [[(js "id", VNumber 42)]]; rowCount := Some 1%N |})
      (MainConnection.exec (H := ascii_case)
         {| autoincMapping := Some {[ js "users" := js "id" ]};
            useReturningAll := false; inMemoryCursor := false |}
         (js "insert into users values ($1)")
         (Some (Positional (JsArray [Some (VNumber 5)] ∅))))
    = Ok r
    ∧ affectedRows r = Some 1%N
    ∧ getInsertedId r None = Ok (VNumber 42).
Proof.
  apply (exec_returns_configured_id (H := ascii_case)
           {| autoincMapping := Some {[ js "users" := js "id" ]};
              useReturningAll := false; inMemoryCursor := false |}
           (js "insert into users values ($1)")
           (Some (Positional (JsArray [Some (VNumber 5)] ∅)))
           (Some (JsArray [Some (VNumber 5)] ∅))
           (MState 29 [] [(1%nat, js "users")])
           {[ js "users" := js "id" ]} (js "users") (js "id")
           (fun _ => Ok {| rows := [[(js "id", VNumber 42)]];
                           rowCount := Some 1%N |})
           {| rows := [[(js "id", VNumber 42)]]; rowCount := Some 1%N |}
           [(js "id", VNumber 42)]).
  - vm_compute. reflexivity.
  - reflexivity.
  - reflexivity.
  - vm_compute. reflexivity.
  - discriminate.
  - reflexivity.
  - reflexivity.
  - reflexivity.
  - reflexivity.
Defined.

(** X9. On the connection, a named set of parameters never reaches the
    engine: [exec] and [all] fail by the refusal of named parameters
    without a query. [cursor] checks its option first: when the
    in-memory cursor is off it fails by that, whatever the parameters,
    and when it is on a named set is refused as for the others. *)
Theorem connection_refuses_before_query `{CaseMapping} `{ObjectPrototype}
    (options : LadcPgOptions) (sql : list N) (o : gmap (list N) any)
    (params : option SqlParameters)
    (engine : QueryConfig → outcome QueryResult) :
  run engine (MainConnection.exec options sql (Some (Named o)))
  = Throw NotImplemented
  ∧ request (MainConnection.exec options sql (Some (Named o))) = None
  ∧ run engine (MainConnection.all sql (Some (Named o))) = Throw NotImplemented
  ∧ request (MainConnection.all sql (Some (Named o))) = None
  ∧ (inMemoryCursor options = false →
     run engine (MainConnection.cursor options sql params)
     = Throw FeatureDisabled
     ∧ request (MainConnection.cursor options sql params) = None)
  ∧ (inMemoryCursor options = true →
     run engine (MainConnection.cursor options sql (Some (Named o)))
     = Throw NotImplemented
     ∧ request (MainConnection.cursor options sql (Some (Named o))) = None).
Proof.
  repeat split; unfold MainConnection.cursor;
    match goal with
    | Hopt : inMemoryCursor options = _ |- _ => by rewrite Hopt
    end.
Qed.

Lemma connection_refuses_before_query_witness :
  run (fun _ => Ok {| rows := []; rowCount := Some 0%N |})
    (MainConnection.cursor
       {| autoincMapping := None; useReturningAll := false;
          inMemoryCursor := false |}
       (js "select 1") None)
  = Throw FeatureDisabled.
Proof.
  apply (connection_refuses_before_query (H := ascii_case)
           {| autoincMapping := None; useReturningAll := false;
              inMemoryCursor := false |}
           (js "select 1") ∅ None
           (fun _ => Ok {| rows := []; rowCount := Some 0%N |})).
  reflexivity.
Defined.

(** ** The shape of the statements [insertRegexp] matches *)

(** A successful match of [r] followed by [k] consumed a string that [r]
    spells out, and went through [k] on what was left. *)
Lemma rmatch_lang (r : regex) :
  ∀ k s m, rmatch r k s = Some m →
    ∃ w s', lang r w
            ∧ rest s = w ++ rest s'
            ∧ pos s' = (pos s + length w)%nat
            ∧ (has_group r = false → caps s' = caps s)
            ∧ k s' = Some m.
Proof.
  induction r as [| |p|r1 IH1 r2 IH2|r1 IH1|r1 IH1|n r1 IH1]; intros k s m Hm;
    cbn [rmatch] in Hm.
  - destruct (Nat.eqb (pos s) 0); [|done]. exists [], s. simpl. by rewrite Nat.add_0_r.
  - destruct (rest s) eqn:E; [|done]. exists [], s. simpl.
    by rewrite Nat.add_0_r.
  - destruct (rest s) as [|c tl] eqn:E; [done|]. destruct (p c) eqn:Hp; [|done].
    exists [c], (MState (S (pos s)) tl (caps s)).
    split; [by exists c|]. split; [done|].
    split; [simpl; lia|]. by split.
  - apply IH1 in Hm as (w1 & s1 & L1 & R1 & P1 & C1 & Hm).
    apply IH2 in Hm as (w2 & s2 & L2 & R2 & P2 & C2 & Hm).
    exists (w1 ++ w2), s2. split; [by exists w1, w2|].
    split; [by rewrite R1, R2, app_assoc|].
    split; [rewrite length_app; lia|]. split; [|done].
    cbn [has_group]. intros [H1 H2]%orb_false_elim. by rewrite C2, C1.
  - assert (∀ fuel s0,
      (fix iter (fuel : nat) (s0 : mstate) {struct fuel} : option mstate :=
         match fuel with
         | O => k s0
         | S fuel =>
             match
               rmatch r1
                 (fun s1 =>
                    if Nat.ltb (length (rest s1)) (length (rest s0))
                    then iter fuel s1 else None) s0
             with
             | Some m => Some m
             | None => k s0
             end
         end) fuel s0 = Some m →
      ∃ w s', lang (Star r1) w
              ∧ rest s0 = w ++ rest s'
              ∧ pos s' = (pos s0 + length w)%nat
              ∧ (has_group (Star r1) = false → caps s' = caps s0)
              ∧ k s' = Some m) as Hiter.
    { assert (∀ s0, k s0 = Some m →
        ∃ w s', lang (Star r1) w ∧ rest s0 = w ++ rest s'
                ∧ pos s' = (pos s0 + length w)%nat
                ∧ (has_group (Star r1) = false → caps s' = caps s0)
                ∧ k s' = Some m) as Hstop.
      { intros s0 H0. exists [], s0. split; [by exists []|].
        simpl. by rewrite Nat.add_0_r. }
      induction fuel as [|fuel IHf]; intros s0 H0; [by apply Hstop|].
      match type of H0 with
      | match ?x with _ => _ end = _ => destruct x as [m'|] eqn:Hbody
      end; [|by apply Hstop].
      injection H0 as ->.
      apply IH1 in Hbody as (w1 & s1 & L1 & R1 & P1 & C1 & Hs1).
      destruct (Nat.ltb _ _); [|done].
      apply IHf in Hs1 as (w2 & s2 & (pieces & -> & Hpieces) & R2 & P2 & C2 & Hk).
      exists (w1 ++ concat pieces), s2.
      split; [exists (w1 :: pieces); split; [done|by constructor]|].
      split; [by rewrite R1, R2, app_assoc|].
      split; [rewrite length_app; lia|]. split; [|done].
      cbn [has_group] in *. intros Hg. by rewrite C2, C1. }
    by apply Hiter in Hm.
  - match type of Hm with
    | match ?x with _ => _ end = _ => destruct x as [m'|] eqn:Hbody
    end.
    + injection Hm as ->.
      apply IH1 in Hbody as (w1 & s1 & L1 & R1 & P1 & C1 & Hs1).
      destruct (Nat.ltb _ _); [|done].
      exists w1, s1. split; [by right|]. by repeat split.
    + exists [], s. split; [by left|]. simpl. by rewrite Nat.add_0_r.
  - apply IH1 in Hm as (w1 & s1 & L1 & R1 & P1 & C1 & Hm).
    exists w1,
      (MState (pos s1) (rest s1)
         ((n, take (pos s1 - pos s)%nat (rest s)) :: caps s1)).
    split; [exact L1|]. by repeat split.
Qed.


Lemma lang_star_atom (p : N → bool) (w : list N) :
  lang (Star (Atom p)) w ↔ Forall (fun c => p c = true) w.
Proof.
  split.
  - intros (pieces & -> & Hpieces).
    induction Hpieces as [|piece pieces (c & -> & Hc) _ IH]; [constructor|].
    simpl. by constructor.
  - intros Hw. exists ((fun c => [c]) <$> w). split.
    + induction w as [|c w IH]; [done|]. inversion Hw; subst.
      simpl. f_equal. by apply IH.
    + induction Hw as [|c w Hc _ IH]; constructor; [by exists c | done].
Qed.

Lemma lang_plus_atom (p : N → bool) (w : list N) :
  lang (Plus (Atom p)) w ↔ w ≠ [] ∧ Forall (fun c => p c = true) w.
Proof.
  split.
  - intros (w1 & w2 & -> & (c & -> & Hc) & Hstar%lang_star_atom).
    split; [done|]. by constructor.
  - intros [Hne Hw]. destruct w as [|c w]; [done|]. inversion Hw; subst.
    exists [c], w. split; [done|]. split; [by exists c|].
    by apply lang_star_atom.
Qed.

Lemma canonicalize_plain (c x : N) :
  (x < 65 ∨ 122 < x ∨ (90 < x ∧ x < 97))%N → canonicalize c = x ↔ c = x.
Proof.
  intros Hx. unfold canonicalize.
  destruct (N.leb_spec 97 c), (N.leb_spec c 122); cbn [andb]; lia.
Qed.

Lemma lang_chr_plain (a : ascii) (w : list N) :
  (N_of_ascii a < 65 ∨ 122 < N_of_ascii a
   ∨ (90 < N_of_ascii a ∧ N_of_ascii a < 97))%N →
  lang (chr a) w ↔ w = [N_of_ascii a].
Proof.
  intros Ha.
  assert (canonicalize (N_of_ascii a) = N_of_ascii a) as Hcan.
  { unfold canonicalize.
    destruct (N.leb_spec 97 (N_of_ascii a)), (N.leb_spec (N_of_ascii a) 122);
      cbn [andb]; lia. }
  unfold chr. cbn [lang]. rewrite Hcan. split.
  - intros (c & -> & Hc%N.eqb_eq). f_equal.
    by apply (proj1 (canonicalize_plain c _ Ha)) in Hc.
  - intros ->. exists (N_of_ascii a). split; [done|]. apply N.eqb_eq, Hcan.
Qed.

Lemma lang_seqs_chr (l : list ascii) (w : list N) :
  lang (seqs (List.map chr l)) w
  ↔ List.map canonicalize w
    = List.map (fun a => canonicalize (N_of_ascii a)) l.
Proof.
  revert w. induction l as [|a l IH]; intros w.
  - cbn [List.map seqs]. rewrite lang_star_atom. split.
    + intros Hw. destruct w as [|c w]; [done|]. by inversion Hw.
    + destruct w; [constructor | discriminate].
  - assert (lang (chr a) [] → False) as Hnil by (by intros (c & ? & _)).
    assert (∀ w1, lang (chr a) w1 ↔
              ∃ c, w1 = [c] ∧ canonicalize c = canonicalize (N_of_ascii a))
      as Hchr.
    { intros w1. unfold chr. cbn [lang]. split.
      - intros (c & -> & Hc%N.eqb_eq). eauto.
      - intros (c & -> & Hc). exists c. split; [done|]. by apply N.eqb_eq. }
    destruct l as [|b l'].
    + cbn [List.map seqs]. rewrite Hchr. split.
      * intros (c & -> & Hc). simpl. by rewrite Hc.
      * destruct w as [|c [|c' w]]; try discriminate.
        intros [= Hc]. eauto.
    + change (seqs (List.map chr (a :: b :: l')))
        with (Seq (chr a) (seqs (List.map chr (b :: l')))).
      cbn [lang]. split.
      * intros (w1 & w2 & -> & (c & -> & Hc)%Hchr & Hw2%IH).
        simpl in *. by rewrite Hc, Hw2.
      * destruct w as [|c w]; [discriminate|]. intros Hw.
        change (List.map canonicalize (c :: w))
          with (canonicalize c :: List.map canonicalize w) in Hw.
        change (List.map (fun a => canonicalize (N_of_ascii a)) (a :: b :: l'))
          with (canonicalize (N_of_ascii a)
                :: List.map (fun a => canonicalize (N_of_ascii a)) (b :: l'))
          in Hw.
        injection Hw as Hc Hw.
        exists [c], w. split; [done|]. split; [apply Hchr; eauto|].
        by apply IH.
Qed.

Lemma lang_word (kw : string) (w : list N) :
  lang (word kw) w ↔ keyword kw w.
Proof.
  unfold word, keyword, js. rewrite lang_seqs_chr. by rewrite List.map_map.
Qed.

Lemma lang_not_space_paren (w : list N) :
  lang (Plus not_space_paren) w ↔ token w.
Proof.
  unfold not_space_paren, token. rewrite lang_plus_atom.
  split; intros [Hne Hw]; (split; [done|]);
    (eapply Forall_impl; [exact Hw|]); intros c; simpl.
  - intros Hc%negb_true_iff%orb_false_elim. destruct Hc as [Hws Hp].
    split; [done|]. by apply N.eqb_neq.
  - intros [Hws Hp]. apply negb_true_iff, orb_false_intro; [done|].
    by apply N.eqb_neq.
Qed.

Lemma lang_columns (w : list N) :
  lang (Opt (Seq (chr "(") (Seq (Plus not_close_paren) (chr ")")))) w
  ↔ column_list w.
Proof.
  unfold column_list. cbn [lang].
  split.
  - intros [->|(w1 & w2 & -> & H1 & w3 & w4 & -> & H3 & H4)]; [by left|].
    right. apply (proj1 (lang_chr_plain "(" _ (or_introl eq_refl))) in H1.
    apply (proj1 (lang_chr_plain ")" _ (or_introl eq_refl))) in H4.
    apply (proj1 (lang_plus_atom (fun c => negb (c =? 41)%N) _)) in H3
      as [Hne H3].
    subst. exists w3. split; [done|]. split; [done|].
    eapply Forall_impl; [exact H3|]. intros c Hc%negb_true_iff.
    by apply N.eqb_neq.
  - intros [->|(inner & -> & Hne & Hinner)]; [by left|].
    right. exists [40%N], (inner ++ [41%N]). split; [done|].
    split; [by apply (lang_chr_plain "(" _ (or_introl eq_refl))|].
    exists inner, [41%N]. split; [done|]. split.
    + apply (lang_plus_atom (fun c => negb (c =? 41)%N)). split; [done|].
      eapply Forall_impl; [exact Hinner|]. intros c Hc.
      by apply negb_true_iff, N.eqb_neq.
    + by apply (lang_chr_plain ")" _ (or_introl eq_refl)).
Qed.


Lemma exec_from_start (r : regex) (input : list N) :
  ∀ i m, exec_from r i input = Some m →
    ∃ j, rmatch r Some (MState (i + j) (drop j input) []) = Some m.
Proof.
  induction input as [|c tl IH]; intros i m Hm; cbn [exec_from] in Hm.
  - destruct (rmatch r Some (MState i [] [])) eqn:E; [|done].
    injection Hm as ->. exists 0%nat. by rewrite Nat.add_0_r.
  - destruct (rmatch r Some (MState i (c :: tl) [])) eqn:E.
    + injection Hm as ->. exists 0%nat. by rewrite Nat.add_0_r.
    + apply IH in Hm as (j & Hm). exists (S j).
      by rewrite Nat.add_succ_r.
Qed.

Lemma rmatch_Bol (k : mstate → option mstate) (s : mstate) :
  rmatch Bol k s = if Nat.eqb (pos s) 0 then k s else None.
Proof. reflexivity. Qed.

Lemma rmatch_Eol (k : mstate → option mstate) (s : mstate) :
  rmatch Eol k s = match rest s with [] => k s | _ :: _ => None end.
Proof. reflexivity. Qed.

Lemma insertRegexp_parts (sql : list N) (matches : mstate) :
  exec insertRegexp sql = Some matches →
  ∃ p, well_formed p ∧ sql = assemble p
       ∧ capture matches 1 = Some (p_table p).
Proof.
  intros Hm. apply exec_from_start in Hm as (j & Hm).
  unfold insertRegexp in Hm. cbn [seqs] in Hm.
  rewrite rmatch_Seq, rmatch_Bol in Hm. cbn [pos] in Hm.
  destruct (Nat.eqb_spec (0 + j) 0) as [Hj|]; [|done].
  assert (j = 0%nat) as -> by lia. cbn [drop] in Hm.
  rewrite rmatch_Seq in Hm.
  apply rmatch_lang in Hm as (w1 & s1 & L1 & R1 & _ & _ & Hm).
  rewrite rmatch_Seq in Hm.
  apply rmatch_lang in Hm as (w2 & s2 & L2 & R2 & _ & _ & Hm).
  rewrite rmatch_Seq in Hm.
  apply rmatch_lang in Hm as (w3 & s3 & L3 & R3 & _ & _ & Hm).
  rewrite rmatch_Seq in Hm.
  apply rmatch_lang in Hm as (w4 & s4 & L4 & R4 & _ & _ & Hm).
  rewrite rmatch_Seq in Hm.
  apply rmatch_lang in Hm as (w5 & s5 & L5 & R5 & _ & _ & Hm).
  rewrite rmatch_Seq, rmatch_Group in Hm.
  apply rmatch_lang in Hm as (w6 & s6 & L6 & R6 & P6 & _ & Hm).
  rewrite rmatch_Seq in Hm.
  apply rmatch_lang in Hm as (w7 & s7 & L7 & R7 & _ & C7 & Hm).
  rewrite rmatch_Seq in Hm.
  apply rmatch_lang in Hm as (w8 & s8 & L8 & R8 & _ & C8 & Hm).
  rewrite rmatch_Seq in Hm.
  apply rmatch_lang in Hm as (w9 & s9 & L9 & R9 & _ & C9 & Hm).
  rewrite rmatch_Seq in Hm.
  apply rmatch_lang in Hm as (w10 & s10 & L10 & R10 & _ & C10 & Hm).
  rewrite rmatch_Seq in Hm.
  apply rmatch_lang in Hm as (w11 & s11 & L11 & R11 & _ & C11 & Hm).
  rewrite rmatch_Seq in Hm.
  apply rmatch_lang in Hm as (w12 & s12 & L12 & R12 & _ & C12 & Hm).
  rewrite rmatch_Seq in Hm.
  apply rmatch_lang in Hm as (w13 & s13 & L13 & R13 & _ & C13 & Hm).
  rewrite rmatch_Seq in Hm.
  apply rmatch_lang in Hm as (w14 & s14 & L14 & R14 & _ & C14 & Hm).
  rewrite rmatch_Seq in Hm.
  apply rmatch_lang in Hm as (w15 & s15 & L15 & R15 & _ & C15 & Hm).
  rewrite rmatch_Eol in Hm. destruct (rest s15) eqn:R16; [|done].
  injection Hm as <-.
  cbn [rest pos caps] in *.
  apply (proj1 (lang_chr_plain "(" _ (or_introl eq_refl))) in L12.
  apply (proj1 (lang_chr_plain ")" _ (or_introl eq_refl))) in L14.
  exists {| p_lead := w1; p_insert := w2; p_gap1 := w3; p_into := w4;
            p_gap2 := w5; p_table := w6; p_gap3 := w7; p_columns := w8;
            p_gap4 := w9; p_values := w10; p_gap5 := w11; p_body := w13;
            p_trail := w15 |}.
  split; [|split].
  - unfold well_formed. cbn.
    apply lang_star_atom in L1, L7, L9, L11, L15.
    apply lang_plus_atom in L3 as [N3 L3], L5 as [N5 L5].
    apply lang_word in L2, L4, L10.
    apply lang_not_space_paren in L6. apply lang_columns in L8.
    exact (conj L1 (conj L2 (conj L3 (conj N3 (conj L4 (conj L5 (conj N5
            (conj L6 (conj L7 (conj L8 (conj L9 (conj L10
            (conj L11 L15))))))))))))).
  - unfold assemble. cbn. change (drop 0 sql) with sql in R1.
    rewrite R1, R2, R3, R4, R5, R6, R7, R8, R9, R10, R11, R12, R13, R14, R15.
    rewrite L12, L14, app_nil_r. reflexivity.
  - unfold capture.
    rewrite (C15 eq_refl), (C14 eq_refl), (C13 eq_refl), (C12 eq_refl),
      (C11 eq_refl), (C10 eq_refl), (C9 eq_refl), (C8 eq_refl), (C7 eq_refl).
    cbn. rewrite R6, P6.
    replace (pos s5 + length w6 - pos s5)%nat with (length w6) by lia.
    by rewrite take_app_length.
Qed.

(** X10. A statement that [insertRegexp] matches has, in this order:
    white space, [insert], white space, [into], white space, a table
    token free of white space and of [(], white space, an optional
    parenthesised column list, white space, [values], white space, and a
    parenthesis that closes at the end of the text but for white space;
    the keywords are in any case, the first two gaps are not empty. The
    table handed on is that token. *)
Theorem insertRegexp_shape (sql : list N) (matches : mstate) :
  exec insertRegexp sql = Some matches →
  ∃ p, well_formed p ∧ sql = assemble p
       ∧ capture matches 1 = Some (p_table p).
Proof. apply insertRegexp_parts. Qed.

Lemma insertRegexp_shape_witness :
  ∃ p, well_formed p
       ∧ js "insert into users(a) values (1)" = assemble p
       ∧ capture (MState 31 [] [(1%nat, js "users")]) 1 = Some (p_table p).
Proof.
  apply (insertRegexp_shape (js "insert into users(a) values (1)")
           (MState 31 [] [(1%nat, js "users")])).
  vm_compute. reflexivity.
Defined.


(** ** The statements [insertRegexp] matches *)

(** Where [r], free of anchors, spells out [w], and [k] accepts what is
    left whatever the captures, the match of [r] followed by [k]
    succeeds. *)
Lemma rmatch_complete (r : regex) :
  anchor_free r = true →
  ∀ w k i R c,
    lang r w →
    (∀ c', is_Some (k (MState (i + length w) R c'))) →
    is_Some (rmatch r k (MState i (w ++ R) c)).
Proof.
  induction r as [| |p|r1 IH1 r2 IH2|r1 IH1|r1 IH1|n r1 IH1];
    intros Hfree w k i R c Hw Hk; cbn [anchor_free] in Hfree; try done.
  - destruct Hw as (x & -> & Hx). cbn. rewrite Hx.
    specialize (Hk c). cbn in Hk. by rewrite Nat.add_1_r in Hk.
  - apply andb_true_iff in Hfree as [F1 F2].
    destruct Hw as (w1 & w2 & -> & L1 & L2).
    rewrite rmatch_Seq, <- app_assoc. apply (IH1 F1); [done|].
    intros c'. apply (IH2 F2); [done|].
    intros c''. specialize (Hk c''). by rewrite length_app, Nat.add_assoc in Hk.
  - destruct Hw as (pieces & -> & Hpieces).
    assert (∀ fuel i c,
      (length (concat pieces ++ R) ≤ fuel)%nat →
      (∀ c', is_Some (k (MState (i + length (concat pieces)) R c'))) →
      is_Some
        ((fix iter (fuel : nat) (s0 : mstate) {struct fuel} : option mstate :=
            match fuel with
            | O => k s0
            | S fuel =>
                match
                  rmatch r1
                    (fun s1 =>
                       if Nat.ltb (length (rest s1)) (length (rest s0))
                       then iter fuel s1 else None) s0
                with
                | Some m => Some m
                | None => k s0
                end
            end) fuel (MState i (concat pieces ++ R) c))) as Hiter.
    { clear Hk i c.
      induction Hpieces as [|w1 pieces L1 _ IHp]; intros fuel i c Hfuel Hk.
      - assert (is_Some (k (MState i R c))) as Hstop.
        { specialize (Hk c). cbn in Hk. by rewrite Nat.add_0_r in Hk. }
        destruct fuel as [|fuel]; [done|]. cbn [concat app].
        match goal with
        | |- is_Some (match ?x with _ => _ end) => by destruct x
        end.
      - destruct w1 as [|x w1]; [by apply IHp|].
        destruct fuel as [|fuel]; [simpl in Hfuel; lia|].
        match goal with
        | |- is_Some (match ?x with _ => _ end) =>
            assert (is_Some x) as [m ->]; [|done]
        end.
        cbn [concat]. rewrite <- app_assoc.
        apply (IH1 Hfree); [done|]. intros c'. cbn [rest].
        destruct (Nat.ltb_spec (length (concat pieces ++ R))
                    (length ((x :: w1) ++ concat pieces ++ R)))
          as [_|Hge]; [|rewrite length_app in Hge; simpl in Hge; lia].
        apply IHp.
        + cbn [concat] in Hfuel. rewrite <- app_assoc, length_app in Hfuel.
          simpl in Hfuel. lia.
        + intros c''. specialize (Hk c'').
          cbn [concat] in Hk. by rewrite length_app, Nat.add_assoc in Hk. }
    cbn [rmatch rest]. by apply Hiter.
  - cbn [rmatch rest].
    assert (is_Some (k (MState i (w ++ R) c)) ∨ w ≠ []) as [Hstop|Hne].
    { destruct w as [|x w]; [left|by right].
      specialize (Hk c). cbn in Hk. by rewrite Nat.add_0_r in Hk. }
    { match goal with
      | |- is_Some (match ?x with _ => _ end) => by destruct x
      end. }
    destruct Hw as [->|Hw]; [done|].
    match goal with
    | |- is_Some (match ?x with _ => _ end) =>
        assert (is_Some x) as [m ->]; [|done]
    end.
    apply (IH1 Hfree); [done|]. intros c'. cbn [rest].
    destruct (Nat.ltb_spec (length R) (length (w ++ R))) as [_|Hge]; [done|].
    rewrite length_app in Hge. destruct w; [done|simpl in Hge; lia].
  - rewrite rmatch_Group. apply (IH1 Hfree); [done|].
    intros c'. cbn [pos rest caps]. apply Hk.
Qed.


Lemma lang_any (w : list N) : lang (Star any_unit) w.
Proof.
  apply lang_star_atom, Forall_forall. intros c _.
  apply orb_true_iff. destruct (white_space c); auto.
Qed.

Lemma insert_tail_accepts (p : InsertParts) (i : nat) (c : list (nat * list N)) :
  well_formed p →
  is_Some (rmatch insert_tail Some (MState i (behind_table p) c)).
Proof.
  intros (_ & _ & _ & _ & _ & _ & _ & _ & G3 & Cols & G4 & Vals & G5 & Tr).
  unfold insert_tail, behind_table. cbn [seqs].
  rewrite <- (app_nil_r (p_trail p)).
  rewrite rmatch_Seq. apply rmatch_complete;
    [done | by apply lang_star_atom | intros c1].
  rewrite rmatch_Seq. apply rmatch_complete;
    [done | by apply lang_columns | intros c2].
  rewrite rmatch_Seq. apply rmatch_complete;
    [done | by apply lang_star_atom | intros c3].
  rewrite rmatch_Seq. apply rmatch_complete;
    [done | by apply lang_word | intros c4].
  rewrite rmatch_Seq. apply rmatch_complete;
    [done | by apply lang_star_atom | intros c5].
  rewrite rmatch_Seq. apply rmatch_complete;
    [done | by apply (lang_chr_plain "(" _ (or_introl eq_refl)) | intros c6].
  rewrite rmatch_Seq. apply rmatch_complete;
    [done | by apply lang_any | intros c7].
  rewrite rmatch_Seq. apply rmatch_complete;
    [done | by apply (lang_chr_plain ")" _ (or_introl eq_refl)) | intros c8].
  rewrite rmatch_Seq. apply rmatch_complete;
    [done | by apply lang_star_atom | intros c9].
  by rewrite rmatch_Eol.
Qed.

Lemma exec_from_first (r : regex) (i : nat) (input : list N) (m : mstate) :
  rmatch r Some (MState i input []) = Some m → exec_from r i input = Some m.
Proof. intros Hm. destruct input; cbn [exec_from]; by rewrite Hm. Qed.

(** Every well-formed statement is matched. *)
Lemma insertRegexp_accepts (p : InsertParts) :
  well_formed p → is_Some (exec insertRegexp (assemble p)).
Proof.
  intros Hp.
  assert (is_Some (rmatch insertRegexp Some (MState 0 (assemble p) [])))
    as [m Hm]; [|exists m; by apply exec_from_first].
  pose proof (fun i c => insert_tail_accepts p i c Hp) as Htail.
  destruct Hp as (Lead & Ins & G1 & N1 & Into & G2 & N2 & Tab & _).
  unfold insertRegexp, assemble. cbn [seqs].
  rewrite rmatch_Seq, rmatch_Bol. cbn [pos Nat.eqb].
  rewrite rmatch_Seq. apply rmatch_complete;
    [done | by apply lang_star_atom | intros c1].
  rewrite rmatch_Seq. apply rmatch_complete;
    [done | by apply lang_word | intros c2].
  rewrite rmatch_Seq. apply rmatch_complete;
    [done | by apply lang_plus_atom | intros c3].
  rewrite rmatch_Seq. apply rmatch_complete;
    [done | by apply lang_word | intros c4].
  rewrite rmatch_Seq. apply rmatch_complete;
    [done | by apply lang_plus_atom | intros c5].
  rewrite rmatch_Seq. apply rmatch_complete;
    [done | by apply lang_not_space_paren | intros c6].
  apply Htail.
Qed.


(** *** The matcher on a text that leaves no choice *)

Lemma fwd_atom (p : N → bool) (k : mstate → option mstate) (i : nat)
    (x : N) (R : list N) (c : list (nat * list N)) :
  p x = true →
  rmatch (Atom p) k (MState i (x :: R) c) = k (MState (S i) R c).
Proof. intros Hx. cbn. by rewrite Hx. Qed.

(** A starred set takes the whole run in front of it when what follows
    accepts there: the longest run is tried first. *)
Lemma fwd_star_atom (p : N → bool) (k : mstate → option mstate)
    (w R : list N) (i : nat) (c : list (nat * list N)) (m : mstate) :
  Forall (fun x => p x = true) w →
  stops p R →
  k (MState (i + length w) R c) = Some m →
  rmatch (Star (Atom p)) k (MState i (w ++ R) c) = Some m.
Proof.
  intros Hw HR Hk.
  assert (∀ fuel i,
    (length (w ++ R) ≤ fuel)%nat →
    k (MState (i + length w) R c) = Some m →
    (fix iter (fuel : nat) (s0 : mstate) {struct fuel} : option mstate :=
       match fuel with
       | O => k s0
       | S fuel =>
           match
             rmatch (Atom p)
               (fun s1 =>
                  if Nat.ltb (length (rest s1)) (length (rest s0))
                  then iter fuel s1 else None) s0
           with
           | Some m => Some m
           | None => k s0
           end
       end) fuel (MState i (w ++ R) c) = Some m) as Hiter.
  { clear i Hk. induction Hw as [|x w Hx _ IH]; intros fuel i Hfuel Hk.
    - cbn [length app] in *. rewrite Nat.add_0_r in Hk.
      destruct fuel as [|fuel]; [done|].
      destruct R as [|y R]; cbn; [done|].
      cbn in HR. by rewrite HR.
    - destruct fuel as [|fuel]; [simpl in Hfuel; lia|].
      cbn [app]. rewrite fwd_atom by done. cbn [rest length].
      rewrite (proj2 (Nat.ltb_lt _ _)) by lia.
      rewrite IH; [done | simpl in Hfuel; lia |].
      by rewrite Nat.add_succ_comm. }
  cbn [rmatch rest]. by apply Hiter.
Qed.

Lemma fwd_plus_atom (p : N → bool) (k : mstate → option mstate)
    (w R : list N) (i : nat) (c : list (nat * list N)) (m : mstate) :
  w ≠ [] →
  Forall (fun x => p x = true) w →
  stops p R →
  k (MState (i + length w) R c) = Some m →
  rmatch (Plus (Atom p)) k (MState i (w ++ R) c) = Some m.
Proof.
  intros Hne Hw HR Hk. destruct w as [|x w]; [done|]. inversion Hw; subst.
  unfold Plus. rewrite rmatch_Seq. cbn [app]. rewrite fwd_atom by done.
  apply fwd_star_atom; [done | done |].
  by rewrite Nat.add_succ_comm.
Qed.

Lemma fwd_seqs_chr (l : list ascii) :
  ∀ (a : ascii) (k : mstate → option mstate) (w R : list N) (i : nat)
    (c : list (nat * list N)),
    List.map canonicalize w
    = List.map (fun a => canonicalize (N_of_ascii a)) (a :: l) →
    rmatch (seqs (List.map chr (a :: l))) k (MState i (w ++ R) c)
    = k (MState (i + length w) R c).
Proof.
  induction l as [|b l IH]; intros a k w R i c Hw.
  - destruct w as [|x [|y w]]; try discriminate. injection Hw as Hx.
    cbn [List.map seqs app length]. unfold chr. rewrite fwd_atom.
    + by rewrite Nat.add_1_r.
    + by apply N.eqb_eq.
  - destruct w as [|x w]; [discriminate|].
    change (List.map canonicalize (x :: w))
      with (canonicalize x :: List.map canonicalize w) in Hw.
    change (List.map (fun a => canonicalize (N_of_ascii a)) (a :: b :: l))
      with (canonicalize (N_of_ascii a)
            :: List.map (fun a => canonicalize (N_of_ascii a)) (b :: l)) in Hw.
    injection Hw as Hx Hw.
    change (seqs (List.map chr (a :: b :: l)))
      with (Seq (chr a) (seqs (List.map chr (b :: l)))).
    rewrite rmatch_Seq. cbn [app]. unfold chr at 1. rewrite fwd_atom.
    + rewrite (IH b _ w R (S i) c Hw). cbn [length].
      by rewrite Nat.add_succ_comm.
    + by apply N.eqb_eq.
Qed.

Lemma fwd_word (kw : string) (a : ascii) (l : list ascii)
    (k : mstate → option mstate) (w R : list N) (i : nat)
    (c : list (nat * list N)) :
  list_ascii_of_string kw = a :: l →
  keyword kw w →
  rmatch (word kw) k (MState i (w ++ R) c) = k (MState (i + length w) R c).
Proof.
  unfold word, keyword, js. intros -> Hw. apply fwd_seqs_chr.
  by rewrite Hw, List.map_map.
Qed.

Lemma fwd_group (n : nat) (p : N → bool) (k : mstate → option mstate)
    (w R : list N) (i : nat) (c : list (nat * list N)) (m : mstate) :
  w ≠ [] →
  Forall (fun x => p x = true) w →
  stops p R →
  k (MState (i + length w) R ((n, w) :: c)) = Some m →
  rmatch (Group n (Plus (Atom p))) k (MState i (w ++ R) c) = Some m.
Proof.
  intros Hne Hw HR Hk. rewrite rmatch_Group.
  apply fwd_plus_atom; [done | done | done |]. cbn [pos rest caps].
  replace (i + length w - i)%nat with (length w) by lia.
  by rewrite take_app_length.
Qed.

Lemma letter_not_space (x y : N) :
  canonicalize x = y → (65 ≤ y ≤ 90)%N → white_space x = false.
Proof.
  unfold canonicalize, white_space. intros Hx Hy.
  destruct (N.leb_spec 97 x), (N.leb_spec x 122); cbn [andb] in Hx;
    repeat first
      [ match goal with
        | |- context [(?a <=? ?b)%N] => destruct (N.leb_spec a b); try lia
        | |- context [(?a =? ?b)%N] => destruct (N.eqb_spec a b); try lia
        end ]; done.
Qed.

Lemma keyword_stops (kw : string) (a : ascii) (l : list ascii) (w R : list N) :
  list_ascii_of_string kw = a :: l →
  (65 ≤ canonicalize (N_of_ascii a) ≤ 90)%N →
  keyword kw w →
  stops white_space (w ++ R).
Proof.
  unfold keyword, js. intros -> Ha Hw. destruct w as [|x w]; [discriminate|].
  injection Hw as Hx _. cbn. by eapply letter_not_space.
Qed.


(** On a well-formed statement whose table is set off, the match hands
    on the table token itself. *)
Lemma insertRegexp_on_shape (p : InsertParts) :
  well_formed p → table_set_off p →
  ∃ m, exec insertRegexp (assemble p) = Some m
       ∧ capture m 1 = Some (p_table p).
Proof.
  intros Hp Hoff.
  set (i0 := (0 + length (p_lead p) + length (p_insert p)
              + length (p_gap1 p) + length (p_into p) + length (p_gap2 p)
              + length (p_table p))%nat).
  destruct (insert_tail_accepts p i0 [(1%nat, p_table p)] Hp) as [m Hm].
  exists m. split.
  - apply exec_from_first.
    destruct Hp as (Lead & Ins & G1 & N1 & Into & G2 & N2 & Tab & G3 & Cols & _).
    unfold insertRegexp, assemble. cbn [seqs].
    rewrite rmatch_Seq, rmatch_Bol. cbn [pos Nat.eqb].
    rewrite rmatch_Seq. apply fwd_star_atom; [done | |].
    { eapply (keyword_stops "insert"); [reflexivity | vm_compute; split; discriminate | done]. }
    rewrite rmatch_Seq, (fwd_word "insert" _ _ _ _ _ _ _ eq_refl Ins).
    rewrite rmatch_Seq. apply fwd_plus_atom; [done | done | |].
    { eapply (keyword_stops "into"); [reflexivity | vm_compute; split; discriminate | done]. }
    rewrite rmatch_Seq, (fwd_word "into" _ _ _ _ _ _ _ eq_refl Into).
    rewrite rmatch_Seq. apply fwd_plus_atom; [done | done | |].
    { destruct Tab as [Hne Htok]. destruct (p_table p) as [|x T]; [done|].
      inversion Htok as [|? ? [Hx _] _]; subst. exact Hx. }
    rewrite rmatch_Seq.
    apply lang_not_space_paren, lang_plus_atom in Tab as [Hne Htok].
    apply fwd_group; [done | done | |].
    { destruct Hoff as [Hgap|Hcols].
      - destruct (p_gap3 p) as [|x g]; [done|].
        inversion G3 as [|? ? Hx _]; subst. cbn. by rewrite Hx.
      - destruct (p_gap3 p) as [|x g].
        + destruct Cols as [Hnil|(inner & -> & _)]; [by destruct Hcols|].
          reflexivity.
        + inversion G3 as [|? ? Hx _]; subst. cbn. by rewrite Hx. }
    exact Hm.
  - apply rmatch_lang in Hm as (w & s' & _ & _ & _ & Hcaps & Hs').
    injection Hs' as <-. unfold capture. by rewrite (Hcaps eq_refl).
Qed.

(** X11. Every statement of the shape of X10 is matched, and when its
    table is set off from what follows, by white space or by a column
    list, the table handed on is the table token. *)
Theorem insertRegexp_matches_shape (p : InsertParts) :
  well_formed p →
  ∃ m, exec insertRegexp (assemble p) = Some m
       ∧ (table_set_off p → capture m 1 = Some (p_table p)).
Proof.
  intros Hp.
  destruct (p_gap3 p) as [|x g] eqn:Hgap, (p_columns p) as [|y cols] eqn:Hcols.
  - destruct (insertRegexp_accepts p Hp) as [m Hm]. exists m.
    split; [done|]. unfold table_set_off. rewrite Hgap, Hcols. by intros [?|?].
  - destruct (insertRegexp_on_shape p Hp) as (m & Hm & Hcap);
      [right; by rewrite Hcols|]. by exists m.
  - destruct (insertRegexp_on_shape p Hp) as (m & Hm & Hcap);
      [left; by rewrite Hgap|]. by exists m.
  - destruct (insertRegexp_on_shape p Hp) as (m & Hm & Hcap);
      [left; by rewrite Hgap|]. by exists m.
Qed.


Lemma insertRegexp_matches_shape_witness :
  ∃ m, exec insertRegexp (js "insert INTO users values ($1)") = Some m
       ∧ capture m 1 = Some (js "users").
Proof.
  destruct (insertRegexp_matches_shape
              {| p_lead := []; p_insert := js "insert"; p_gap1 := js " ";
                 p_into := js "INTO"; p_gap2 := js " "; p_table := js "users";
                 p_gap3 := js " "; p_columns := []; p_gap4 := [];
                 p_values := js "values"; p_gap5 := js " ";
                 p_body := js "$1"; p_trail := [] |})
    as (m & Hm & Hcap).
  - unfold well_formed, spaces, keyword, token, column_list. cbn.
    repeat split; try discriminate; try reflexivity;
      repeat constructor; try discriminate; by left.
  - exists m. split; [exact Hm|]. apply Hcap. left. discriminate.
Defined.

(** X12. On a statement of the shape of X10 whose table is set off by
    white space or by a column list, the rewriter records the table
    token. Where the table does not read a member of [Object.prototype]
    in the mapping, it records the column configured for the table, and
    the text it hands on is the statement followed by
    [ returning <column>] when that column is not empty, by
    [ returning *] when there is none and the return-all flag is set, and
    the statement alone otherwise. *)
Theorem addReturningToInsert_on_shape `{ObjectPrototype} (p : InsertParts)
    (options : LadcPgOptions) :
  well_formed p → table_set_off p →
  rw_insertTable (addReturningToInsert (assemble p) options)
  = Some (p_table p)
  ∧ (reads_inherited options (p_table p) = false →
     ∀ configured,
       configured = (mapping ← autoincMapping options; mapping !! p_table p) →
       rw_idColumnName (addReturningToInsert (assemble p) options) = configured
       ∧ (∀ col, configured = Some col → col ≠ [] →
            rw_sql (addReturningToInsert (assemble p) options)
            = assemble p ++ js " returning " ++ col)
       ∧ (absent configured → useReturningAll options = true →
            rw_sql (addReturningToInsert (assemble p) options)
            = assemble p ++ js " returning *")
       ∧ (absent configured → useReturningAll options = false →
            rw_sql (addReturningToInsert (assemble p) options) = assemble p)).
Proof.
  intros Hp Hoff.
  destruct (insertRegexp_on_shape p Hp Hoff) as (m & Hm & Hcap).
  rewrite (addReturningToInsert_reads (assemble p) options m (p_table p) Hm Hcap).
  cbn [rw_sql rw_insertTable rw_idColumnName].
  split; [done|]. intros Hown configured Hconf.
  rewrite (property_own options (p_table p) Hown), <- Hconf.
  split; [done|]. split; [|split].
  - intros col -> Hcol. by rewrite given_nonempty.
  - intros Hnone%given_None ->. by rewrite Hnone.
  - intros Hnone%given_None ->. by rewrite Hnone.
Qed.

Lemma addReturningToInsert_on_shape_witness :
  rw_insertTable
    (addReturningToInsert (js "insert INTO users values ($1)")
       {| autoincMapping := Some {[ js "users" := js "id" ]};
          useReturningAll := true; inMemoryCursor := false |})
  = Some (js "users")
  ∧ rw_idColumnName
      (addReturningToInsert (js "insert INTO users values ($1)")
         {| autoincMapping := Some {[ js "users" := js "id" ]};
            useReturningAll := true; inMemoryCursor := false |})
    = Some (js "id")
  ∧ rw_sql
      (addReturningToInsert (js "insert INTO users values ($1)")
         {| autoincMapping := Some {[ js "users" := js "id" ]};
            useReturningAll := true; inMemoryCursor := false |})
    = js "insert INTO users values ($1) returning id".
Proof.
  destruct (addReturningToInsert_on_shape
              {| p_lead := []; p_insert := js "insert"; p_gap1 := js " ";
                 p_into := js "INTO"; p_gap2 := js " "; p_table := js "users";
                 p_gap3 := js " "; p_columns := []; p_gap4 := [];
                 p_values := js "values"; p_gap5 := js " ";
                 p_body := js "$1"; p_trail := [] |}
              {| autoincMapping := Some {[ js "users" := js "id" ]};
                 useReturningAll := true; inMemoryCursor := false |})
    as (Htable & Hown).
  - unfold well_formed, spaces, keyword, token, column_list. cbn.
    repeat split; try discriminate; try reflexivity;
      repeat constructor; try discriminate; by left.
  - left. discriminate.
  - destruct (Hown ltac:(vm_compute; reflexivity) (Some (js "id"))
                ltac:(vm_compute; reflexivity)) as (Hcol & Hsql & _).
    split; [exact Htable|]. split; [exact Hcol|].
    apply (Hsql (js "id")); [reflexivity | discriminate].
Defined.

Lemma assemble_last (p : InsertParts) :
  spaces (p_trail p) →
  ∃ x, last (assemble p) = Some x ∧ (x = 41%N ∨ white_space x = true).
Proof.
  intros Htrail. unfold assemble. rewrite !app_assoc, last_app.
  destruct (last (p_trail p)) as [y|] eqn:Hy.
  - exists y. split; [done|]. right.
    apply last_Some_elem_of in Hy.
    by apply (proj1 (Forall_forall _ _) Htrail).
  - exists 41%N. split; [apply last_snoc | by left].
Qed.

Lemma unclosed_text_unmatched (sql : list N) :
  (∀ x, last sql = Some x → x ≠ 41%N ∧ white_space x = false) →
  exec insertRegexp sql = None.
Proof.
  intros Hlast. destruct (exec insertRegexp sql) as [m|] eqn:Hm; [|done].
  apply insertRegexp_parts in Hm as (p & Hp & -> & _).
  destruct (assemble_last p) as (x & Hx & Hcase).
  { apply Hp. }
  destruct (Hlast x Hx) as [H41 Hws].
  destruct Hcase as [->|Hws']; [done | congruence].
Qed.

(** X13. A text that does not end, white space apart, with a closing
    parenthesis is never rewritten: the empty text, a text whose last
    code unit is neither [)] nor white space. So what the rewriter hands
    on is not rewritten again: neither a text with [ returning *], nor a
    text with [ returning <column>] for a column whose last code unit is
    neither [)] nor white space. *)
Theorem unclosed_text_passes `{ObjectPrototype} (sql : list N)
    (options : LadcPgOptions) :
  ((∀ x, last sql = Some x → x ≠ 41%N ∧ white_space x = false) →
   addReturningToInsert sql options
   = {| rw_sql := sql; rw_insertTable := None; rw_idColumnName := None |})
  ∧ addReturningToInsert (sql ++ js " returning *") options
    = {| rw_sql := sql ++ js " returning *"; rw_insertTable := None;
         rw_idColumnName := None |}
  ∧ (∀ col x, last col = Some x → x ≠ 41%N → white_space x = false →
       addReturningToInsert (sql ++ js " returning " ++ col) options
       = {| rw_sql := sql ++ js " returning " ++ col; rw_insertTable := None;
            rw_idColumnName := None |}).
Proof.
  assert (∀ text,
    (∀ x, last text = Some x → x ≠ 41%N ∧ white_space x = false) →
    addReturningToInsert text options
    = {| rw_sql := text; rw_insertTable := None; rw_idColumnName := None |})
    as Hpass.
  { intros text Hlast. unfold addReturningToInsert.
    by rewrite (unclosed_text_unmatched text Hlast). }
  split; [apply Hpass|]. split.
  - apply Hpass. intros x.
    change (js " returning *") with (js " returning " ++ [42%N]).
    rewrite app_assoc, last_snoc. intros [= <-]. by split.
  - intros col x Hx H41 Hws. apply Hpass. intros y.
    rewrite !app_assoc, last_app, Hx. by intros [= <-].
Qed.

Lemma unclosed_text_passes_witness :
  addReturningToInsert (js "insert into users values ($1) returning id")
    {| autoincMapping := Some {[ js "users" := js "id" ]};
       useReturningAll := true; inMemoryCursor := false |}
  = {| rw_sql := js "insert into users values ($1) returning id";
       rw_insertTable := None; rw_idColumnName := None |}.
Proof.
  apply (proj2 (proj2 (unclosed_text_passes
           (js "insert into users values ($1)")
           {| autoincMapping := Some {[ js "users" := js "id" ]};
              useReturningAll := true; inMemoryCursor := false |}))
         (js "id") 100%N); [reflexivity | discriminate | reflexivity].
Defined.


(** ** The size of merged parameters *)

Lemma forEach_assign_length (p2 : list (option any)) :
  ∀ (index : nat) (result : list (option any)),
    length (forEach p2 index assign result)
    = Nat.max (length result)
        (if Nat.eqb (extent p2) 0 then 0 else index + extent p2)%nat.
Proof.
  induction p2 as [|[val|] tl IH]; intros index result; cbn [forEach extent].
  - cbn. lia.
  - rewrite IH. unfold assign. rewrite arr_write_length.
    destruct (extent tl) as [|e]; cbn; lia.
  - rewrite IH. destruct (extent tl) as [|e]; cbn; lia.
Qed.

Lemma arr_write_filled (a : list (option any)) (i j : nat) (v : any) :
  (∃ x, a !! j = Some (Some x)) → ∃ x, arr_write a i v !! j = Some (Some x).
Proof.
  intros [x Hx]. destruct (decide (i = j)) as [->|Hne].
  - exists v. apply arr_write_lookup.
  - exists x. by apply arr_write_kept.
Qed.

Lemma forEach_assign_filled (p2 : list (option any)) :
  ∀ (index : nat) (result : list (option any)) (j : nat),
    (∃ x, result !! j = Some (Some x)) →
    ∃ x, forEach p2 index assign result !! j = Some (Some x).
Proof.
  induction p2 as [|[val|] tl IH]; intros index result j Hj; cbn [forEach].
  - done.
  - apply IH. unfold assign. by apply arr_write_filled.
  - by apply IH.
Qed.

(** X14. Merging two ordered sets never fails and never shortens the
    base: the result has as many slots as the longer of the base and of
    the override up to its last element; every slot that the base has is
    filled in the result, a hole of the base becoming [undefined]; the
    result carries none of the properties that are not slots. *)
Theorem mergeParams_positional_size (p1 p2 : jsarray) :
  ∃ merged,
    mergeParams (Some (Positional p1)) (Some (Positional p2))
    = Ok (Some (Positional merged))
    ∧ length (elems merged) = Nat.max (length (elems p1)) (extent (elems p2))
    ∧ (∀ i, (i < length (elems p1))%nat →
            ∃ x, elems merged !! i = Some (Some x))
    ∧ extra merged = ∅.
Proof.
  eexists. split; [reflexivity|]. cbn [elems extra]. fold assign.
  split; [|split; [|done]].
  - rewrite forEach_assign_length. unfold spread. rewrite length_map.
    destruct (extent (elems p2)); cbn; lia.
  - intros i Hi. apply forEach_assign_filled.
    destruct (lookup_lt_is_Some_2 (elems p1) i Hi) as [slot Hslot].
    exists (default VUndefined slot). unfold spread.
    change (List.map ?f ?l) with (f <$> l). by rewrite list_lookup_fmap, Hslot.
Qed.

Example mergeParams_positional_size_example :
  mergeParams
    (Some (Positional (JsArray [Some (VNumber 1); None] ∅)))
    (Some (Positional (JsArray [None; None; None; Some (VNumber 4); None] ∅)))
  = Ok (Some (Positional
               (JsArray [Some (VNumber 1); Some VUndefined; None;
                         Some (VNumber 4)] ∅))).
Proof. reflexivity. Qed.


(** ** What binding never changes *)

Lemma put_is_named (params : SqlParameters) (z : Z) (v : any) :
  is_named (Some (put params z v)) = is_named (Some params).
Proof.
  destruct params as [a|o]; cbn; [|done].
  by destruct ((0 <=? z) && (z <? 4294967295)).
Qed.

Lemma put_undefined_is_named (params params' : SqlParameters) (k : key) :
  put_undefined params k = Ok params' →
  is_named (Some params') = is_named (Some params).
Proof.
  destruct k as [z|key]; cbn [put_undefined].
  - intros [= <-]. apply put_is_named.
  - destruct params as [a|o]; [|by intros [= <-]].
    destruct (array_index key); [by intros [= <-]|].
    case_bool_decide; [done | by intros [= <-]].
Qed.

Lemma rebind_keeps (o : rebinding) (s : PreparedStatement.statement) :
  PreparedStatement.psName (rebind o s) = PreparedStatement.psName s
  ∧ PreparedStatement.sql (rebind o s) = PreparedStatement.sql s
  ∧ is_named (PreparedStatement.boundParams (rebind o s))
    = is_named (PreparedStatement.boundParams s).
Proof.
  destruct o as [[z|k] v|k];
    unfold rebind, PreparedStatement.bind, PreparedStatement.unbind.
  - cbn [PreparedStatement.psName PreparedStatement.sql
         PreparedStatement.boundParams PreparedStatement.with_boundParams].
    repeat split. rewrite put_is_named.
    by destruct (PreparedStatement.boundParams s).
  - done.
  - destruct (PreparedStatement.boundParams s) as [params|] eqn:Hb.
    + destruct (put_undefined params k) as [params'| |] eqn:Hput;
        cbn [mbind outcome_mbind outcome_bind];
        [|by rewrite Hb|by rewrite Hb].
      cbn [PreparedStatement.psName PreparedStatement.sql
           PreparedStatement.boundParams PreparedStatement.with_boundParams].
      repeat split. by apply put_undefined_is_named with k.
    + by rewrite Hb.
Qed.

(** X15. No series of [bind] and [unbind] calls, failed ones included,
    changes the name or the text of a prepared statement, or turns bound
    parameters that are not a named set into a named set, or a named set
    into anything else. *)
Theorem rebinding_invariants (os : list rebinding)
    (s : PreparedStatement.statement) :
  PreparedStatement.psName (rebind_all os s) = PreparedStatement.psName s
  ∧ PreparedStatement.sql (rebind_all os s) = PreparedStatement.sql s
  ∧ is_named (PreparedStatement.boundParams (rebind_all os s))
    = is_named (PreparedStatement.boundParams s).
Proof.
  revert s. induction os as [|o os IH]; intros s; [done|].
  unfold rebind_all in *. cbn [fold_left].
  destruct (IH (rebind o s)) as (Hn & Hs & Hb).
  destruct (rebind_keeps o s) as (Hn' & Hs' & Hb').
  rewrite Hn, Hs, Hb. by repeat split.
Qed.
